(** * gocache: the cache engine and its snapshot persistence

    A shallow embedding of [gocache.go] and [persistence.go].

    The Go program keeps its entries in a [map[string]*Entry] and threads a
    doubly-linked list through the very same [Entry] objects.  Pointers are
    therefore modelled explicitly: a location is a natural number, the store
    is a finite map from locations to [Entry] records, and every Go statement
    that reads or writes through a pointer reads or writes the store.  A
    nullable pointer is an [option loc]. *)

From stdpp Require Import gmap strings list fin_maps sorting.
From Stdlib Require Import ZArith Lia.

Local Open Scope Z_scope.

(** ** Machine integers *)

(** Go's [int] and [int64] are 64-bit two's complement on the platforms the
    library targets; [+=], [-=] and [++] wrap around silently. *)
Module Int.
Definition min_int : Z := - 2 ^ 63.
Definition max_int : Z := 2 ^ 63 - 1.
Definition wrap (z : Z) : Z := (z + 2 ^ 63) mod 2 ^ 64 - 2 ^ 63.
Definition in_range (z : Z) : Prop := min_int ≤ z ≤ max_int.
Definition add (a b : Z) : Z := wrap (a + b).
Definition sub (a b : Z) : Z := wrap (a - b).
End Int.

(** ** Constants of gocache.go *)

Definition NoMaxSize : Z := 0.
Definition NoMaxMemoryUsage : Z := 0.
Definition DefaultMaxSize : Z := 100000.
Definition NoExpiration : Z := -1.

(** The three errors gocache.go declares, and the errors that reach the
    caller of the persistence functions from the operating system, the
    encoder and the decoder. *)
Inductive error :=
  | ErrKeyDoesNotExist
  | ErrKeyHasNoExpiration
  | ErrJanitorAlreadyRunning
  | ErrNoSuchFile
  | ErrUnexpectedEOF
  | ErrOther (msg : string).

(** ** Data model *)

(** A location of the store: the address of an [Entry]. *)
Notation loc := nat (only parsing).

(** The value slot is an [interface{}]; the cache never inspects it, it only
    stores it, hands it back and asks for its size. *)
Inductive GoValue :=
  | VNil
  | VString (s : string)
  | VInt (n : Z)
  | VBool (b : bool).

#[global] Instance GoValue_eq_dec : EqDecision GoValue.
Proof. solve_decision. Defined.

Inductive EvictionPolicy := FirstInFirstOut | LeastRecentlyUsed.

#[global] Instance EvictionPolicy_eq_dec : EqDecision EvictionPolicy.
Proof. solve_decision. Defined.

(** [Entry]: the exported fields are what gob writes to a snapshot, [next]
    and [previous] are the intrusive list links.  Timestamps and expirations
    are nanoseconds since the Unix epoch. *)
Record Entry := mkEntry {
  Key : string;
  Value : GoValue;
  RelevantTimestamp : Z;
  Expiration : Z;
  next : option loc;
  previous : option loc
}.

#[global] Instance Entry_inhabited : Inhabited Entry :=
  populate (mkEntry "" VNil 0 0 None None).

Definition set_Value (v : GoValue) (e : Entry) : Entry :=
  mkEntry (Key e) v (RelevantTimestamp e) (Expiration e) (next e) (previous e).
Definition set_RelevantTimestamp (t : Z) (e : Entry) : Entry :=
  mkEntry (Key e) (Value e) t (Expiration e) (next e) (previous e).
Definition set_Expiration (t : Z) (e : Entry) : Entry :=
  mkEntry (Key e) (Value e) (RelevantTimestamp e) t (next e) (previous e).
Definition set_next (n : option loc) (e : Entry) : Entry :=
  mkEntry (Key e) (Value e) (RelevantTimestamp e) (Expiration e) n (previous e).
Definition set_previous (p : option loc) (e : Entry) : Entry :=
  mkEntry (Key e) (Value e) (RelevantTimestamp e) (Expiration e) (next e) p.

(** Modelled from the spec: the [Statistics] container (statistics.go is not
    among the sources): three monotonic counters. *)
Record Statistics := mkStatistics {
  EvictedKeys : Z;
  Hits : Z;
  Misses : Z
}.

(** [Cache].  The mutex and the janitor channel carry no data.  [store] and
    [next_loc] are the memory the [*Entry] pointers point into and its
    allocation counter. *)
Record Cache := mkCache {
  maxSize : Z;
  maxMemoryUsage : Z;
  evictionPolicy : EvictionPolicy;
  stats : Statistics;
  entries : gmap string loc;
  head : option loc;
  tail : option loc;
  memoryUsage : Z;
  store : gmap loc Entry;
  next_loc : loc
}.

Definition set_maxSize (x : Z) (c : Cache) : Cache :=
  mkCache x (maxMemoryUsage c) (evictionPolicy c) (stats c) (entries c)
          (head c) (tail c) (memoryUsage c) (store c) (next_loc c).
Definition set_maxMemoryUsage (x : Z) (c : Cache) : Cache :=
  mkCache (maxSize c) x (evictionPolicy c) (stats c) (entries c)
          (head c) (tail c) (memoryUsage c) (store c) (next_loc c).
Definition set_evictionPolicy (x : EvictionPolicy) (c : Cache) : Cache :=
  mkCache (maxSize c) (maxMemoryUsage c) x (stats c) (entries c)
          (head c) (tail c) (memoryUsage c) (store c) (next_loc c).
Definition set_stats (x : Statistics) (c : Cache) : Cache :=
  mkCache (maxSize c) (maxMemoryUsage c) (evictionPolicy c) x (entries c)
          (head c) (tail c) (memoryUsage c) (store c) (next_loc c).
Definition set_entries (x : gmap string loc) (c : Cache) : Cache :=
  mkCache (maxSize c) (maxMemoryUsage c) (evictionPolicy c) (stats c) x
          (head c) (tail c) (memoryUsage c) (store c) (next_loc c).
Definition set_head (x : option loc) (c : Cache) : Cache :=
  mkCache (maxSize c) (maxMemoryUsage c) (evictionPolicy c) (stats c) (entries c)
          x (tail c) (memoryUsage c) (store c) (next_loc c).
Definition set_tail (x : option loc) (c : Cache) : Cache :=
  mkCache (maxSize c) (maxMemoryUsage c) (evictionPolicy c) (stats c) (entries c)
          (head c) x (memoryUsage c) (store c) (next_loc c).
Definition set_memoryUsage (x : Z) (c : Cache) : Cache :=
  mkCache (maxSize c) (maxMemoryUsage c) (evictionPolicy c) (stats c) (entries c)
          (head c) (tail c) x (store c) (next_loc c).
Definition set_store (x : gmap loc Entry) (c : Cache) : Cache :=
  mkCache (maxSize c) (maxMemoryUsage c) (evictionPolicy c) (stats c) (entries c)
          (head c) (tail c) (memoryUsage c) x (next_loc c).
Definition set_next_loc (x : loc) (c : Cache) : Cache :=
  mkCache (maxSize c) (maxMemoryUsage c) (evictionPolicy c) (stats c) (entries c)
          (head c) (tail c) (memoryUsage c) (store c) x.

(** Reading and writing through an [*Entry]. *)
Definition deref (c : Cache) (p : loc) : Entry := store c !!! p.

Definition update (p : loc) (f : Entry → Entry) (c : Cache) : Cache :=
  set_store (<[p := f (deref c p)]> (store c)) c.

(** [&Entry{...}]: a fresh object, distinct from every object allocated so
    far. *)
Definition alloc (e : Entry) (c : Cache) : Cache :=
  set_next_loc (S (next_loc c)) (set_store (<[next_loc c := e]> (store c)) c).

Definition ptr_eqb (a b : option loc) : bool := bool_decide (a = b).

(** [len(cache.entries)] *)
Definition len (c : Cache) : Z := Z.of_nat (size (entries c)).

(** ** Entry methods *)

(** The approximate size of a value is supplied by a collaborator, and the
    structural overhead of an entry is a constant of its memory layout. *)
Class SizeModel := {
  entryOverhead : Z;
  sizeOfValue : GoValue → Z;
  entryOverhead_nonneg : 0 ≤ entryOverhead;
  sizeOfValue_nonneg : ∀ v, 0 ≤ sizeOfValue v
}.

(** Modelled from the spec: [Entry.SizeInBytes] (entry.go is not among the
    sources): a fixed structural overhead plus the byte length of the key
    plus the byte length of the value. *)
Definition SizeInBytes `{SizeModel} (e : Entry) : Z :=
  entryOverhead + Z.of_nat (String.length (Key e)) + sizeOfValue (Value e).

(** Modelled from the spec: [Entry.Expired] (entry.go is not among the
    sources): expiration is not "no expiration" and now is at or past it. *)
Definition Expired (e : Entry) (now : Z) : bool :=
  bool_decide (Expiration e ≠ NoExpiration) && (Expiration e <=? now).

(** Modelled from the spec: [Entry.Accessed] (entry.go is not among the
    sources): the relevant timestamp becomes now. *)
Definition Accessed (now : Z) (e : Entry) : Entry := set_RelevantTimestamp now e.

(** [time.Now().Add(ttl).UnixNano()]: an [int64] count of nanoseconds. *)
Definition expiration_after (now ttl : Z) : Z := Int.wrap (now + ttl).

(** [time.Until(time.Unix(0, expiration))]: a [Duration] saturates at the
    ends of the [int64] range instead of wrapping. *)
Definition time_Until (expiration now : Z) : Z :=
  Z.max Int.min_int (Z.min (expiration - now) Int.max_int).

(** ** Constructor, configuration and accessors *)

Definition NewCache : Cache :=
  mkCache DefaultMaxSize 0 FirstInFirstOut (mkStatistics 0 0 0) ∅ None None 0 ∅ 0%nat.

Definition WithMaxSize (n : Z) (c : Cache) : Cache :=
  set_maxSize (if n <? 0 then NoMaxSize else n) c.

Definition WithMaxMemoryUsage (n : Z) (c : Cache) : Cache :=
  set_maxMemoryUsage (if n <? 0 then NoMaxMemoryUsage else n) c.


Definition Count (c : Cache) : Z := len c.

(** ** The list primitives *)

Definition get (c : Cache) (key : string) : option loc := entries c !! key.

Definition removeExistingEntryReferences (entry : loc) (c : Cache) : Cache :=
  let c :=
    if ptr_eqb (tail c) (Some entry) && ptr_eqb (head c) (Some entry) then
      set_head None (set_tail None c)
    else if ptr_eqb (tail c) (Some entry) then
      (* cache.tail is entry here *)
      set_tail (next (deref c entry)) c
    else if ptr_eqb (head c) (Some entry) then
      (* cache.head is entry here *)
      set_head (previous (deref c entry)) c
    else c in
  let c :=
    match previous (deref c entry) with
    | Some p => update p (set_next (next (deref c entry))) c
    | None => c
    end in
  let c :=
    match next (deref c entry) with
    | Some n => update n (set_previous (previous (deref c entry))) c
    | None => c
    end in
  let c := update entry (set_next None) c in
  update entry (set_previous None) c.

Definition moveExistingEntryToHead (entry : loc) (c : Cache) : Cache :=
  let c :=
    if negb (ptr_eqb (Some entry) (head c) && ptr_eqb (Some entry) (tail c)) then
      removeExistingEntryReferences entry c
    else c in
  if negb (ptr_eqb (Some entry) (head c)) then
    let c := update entry (set_previous (head c)) c in
    let c := update entry (set_next None) c in
    let c :=
      match head c with
      | Some h => update h (set_next (Some entry)) c
      | None => c
      end in
    set_head (Some entry) c
  else c.

Definition memory_bounded (c : Cache) : bool :=
  negb (maxMemoryUsage c =? NoMaxMemoryUsage).

Definition size_bounded (c : Cache) : bool :=
  negb (maxSize c =? NoMaxSize).

Section Engine.
Context `{SizeModel}.

(** [evict] removes the tail from the cache. *)
Definition evict (c : Cache) : Cache :=
  match tail c with
  | None => c
  | Some oldTail =>
    if len c =? 0 then c
    else
      let c := removeExistingEntryReferences oldTail c in
      let c := set_entries (delete (Key (deref c oldTail)) (entries c)) c in
      let c :=
        if memory_bounded c then
          set_memoryUsage (Int.sub (memoryUsage c) (SizeInBytes (deref c oldTail))) c
        else c in
      set_stats (mkStatistics (EvictedKeys (stats c) + 1) (Hits (stats c))
                              (Misses (stats c))) c
  end.

(** The private [delete]; stdpp's map [delete] keeps its name. *)
Definition cache_delete (key : string) (c : Cache) : Cache * bool :=
  match entries c !! key with
  | Some entry =>
    let c :=
      if memory_bounded c then
        set_memoryUsage (Int.sub (memoryUsage c) (SizeInBytes (deref c entry))) c
      else c in
    let c := removeExistingEntryReferences entry c in
    (set_entries (delete key (entries c)) c, true)
  | None => (c, false)
  end.

(** [for cond { numberOfEvictions++; cache.evict() }].  A Go loop need not
    terminate; the model runs it for at most [fuel] iterations and answers
    [None] when they do not suffice. *)
Fixpoint evict_while (cond : Cache → bool) (fuel : nat) (n : Z) (c : Cache)
  : option (Z * Cache) :=
  if cond c then
    match fuel with
    | O => None
    | S fuel' => evict_while cond fuel' (Int.add n 1) (evict c)
    end
  else Some (n, c).

Definition over_size (c : Cache) : bool := maxSize c <? len c.

Definition over_memory (c : Cache) : bool :=
  (maxMemoryUsage c <? memoryUsage c) && (0 <? len c).


(** ** Write path *)

(** Steps 4 to 7 of [SetWithTTL], shared by the insert and the update
    branch: set the expiration of [entry], then enforce the bounds. *)
Definition SetWithTTL_finish (fuel : nat) (entry : loc) (ttl now : Z) (c : Cache)
  : option Cache :=
  let c :=
    if bool_decide (ttl ≠ NoExpiration) then
      update entry (set_Expiration (expiration_after now ttl)) c
    else update entry (set_Expiration NoExpiration) c in
  if negb (size_bounded c) && negb (memory_bounded c) then Some c
  else
    let c := if size_bounded c && over_size c then evict c else c in
    if memory_bounded c && (maxMemoryUsage c <? memoryUsage c) then
      snd <$> evict_while over_memory fuel 0 c
    else Some c.

(** The insert branch of [SetWithTTL], up to the point where the expiration
    is set: allocate the entry, make it the head, file it in the map and
    account for its size. *)
Definition insert_entry (key : string) (value : GoValue) (created : Z) (c : Cache)
  : Cache :=
  let entry := next_loc c in
  let c := alloc (mkEntry key value created 0 None (head c)) c in
  let c :=
    match head c with
    | None => set_tail (Some entry) c
    | Some h => update h (set_next (Some entry)) c
    end in
  let c := set_head (Some entry) c in
  let c := set_entries (<[key := entry]> (entries c)) c in
  if memory_bounded c then
    set_memoryUsage (Int.add (memoryUsage c) (SizeInBytes (deref c entry))) c
  else c.

(** The update branch of [SetWithTTL], up to the point where the expiration
    is set: replace the value, keep the accounting exact and move the entry
    back to the head. *)
Definition update_entry (entry : loc) (value : GoValue) (c : Cache) : Cache :=
  let c :=
    if memory_bounded c then
      set_memoryUsage (Int.sub (memoryUsage c) (SizeInBytes (deref c entry))) c
    else c in
  let c := update entry (set_Value value) c in
  let c :=
    if memory_bounded c then
      set_memoryUsage (Int.add (memoryUsage c) (SizeInBytes (deref c entry))) c
    else c in
  moveExistingEntryToHead entry c.

(** [SetWithTTL] reads the clock once when it creates an entry ([created])
    and once when it computes the expiration ([now]). *)
Definition SetWithTTL (fuel : nat) (key : string) (value : GoValue) (ttl : Z)
    (created now : Z) (c : Cache) : option Cache :=
  match get c key with
  | None =>
    (* a negative TTL that is not NoExpiration: do not create the entry *)
    if bool_decide (ttl ≠ NoExpiration) && (ttl <? 0) then Some c
    else SetWithTTL_finish fuel (next_loc c) ttl now (insert_entry key value created c)
  | Some entry =>
    SetWithTTL_finish fuel entry ttl now (update_entry entry value c)
  end.

Definition Set_ (fuel : nat) (key : string) (value : GoValue) (created now : Z)
    (c : Cache) : option Cache :=
  SetWithTTL fuel key value NoExpiration created now c.

(** [SetAll] ranges over a Go map: the argument lists the pairs in the order
    the iteration happens to visit them, each with its two clock readings. *)
Fixpoint SetAll (fuel : nat) (kvs : list (string * GoValue * (Z * Z))) (c : Cache)
  : option Cache :=
  match kvs with
  | [] => Some c
  | (key, value, (created, now)) :: kvs' =>
    match SetWithTTL fuel key value NoExpiration created now c with
    | Some c' => SetAll fuel kvs' c'
    | None => None
    end
  end.

(** ** Read path *)

Definition count_hit (c : Cache) : Cache :=
  set_stats (mkStatistics (EvictedKeys (stats c)) (Hits (stats c) + 1)
                          (Misses (stats c))) c.

Definition count_miss (c : Cache) : Cache :=
  set_stats (mkStatistics (EvictedKeys (stats c)) (Hits (stats c))
                          (Misses (stats c) + 1)) c.

(** [Get] answers [(value, true)] as [Some value] and [(nil, false)] as
    [None].  The clock is read by [Expired] ([now]) and, under LRU, by
    [Accessed] ([accessed]). *)
Definition Get (key : string) (now accessed : Z) (c : Cache)
  : Cache * option GoValue :=
  match get c key with
  | None => (count_miss c, None)
  | Some entry =>
    let c := count_hit c in
    if Expired (deref c entry) now then ((cache_delete key c).1, None)
    else if bool_decide (evictionPolicy c = LeastRecentlyUsed) then
      let c := update entry (Accessed accessed) c in
      if ptr_eqb (head c) (Some entry) then (c, Some (Value (deref c entry)))
      else
        let c := moveExistingEntryToHead entry c in
        (c, Some (Value (deref c entry)))
    else (c, Some (Value (deref c entry)))
  end.


(** ** Deletion and clearing *)




(** ** TTL operations *)

Definition TTL (key : string) (now : Z) (c : Cache) : Z * option error :=
  match get c key with
  | None => (0, Some ErrKeyDoesNotExist)
  | Some entry =>
    if bool_decide (Expiration (deref c entry) = NoExpiration) then
      (0, Some ErrKeyHasNoExpiration)
    else
      let timeUntilExpiration := time_Until (Expiration (deref c entry)) now in
      if timeUntilExpiration <? 0 then (0, Some ErrKeyDoesNotExist)
      else (timeUntilExpiration, None)
  end.


End Engine.

(** ** Snapshot persistence (persistence.go) *)

(** What gob writes for one [*Entry]: the exported fields and nothing else. *)
Record GobEntry := mkGobEntry {
  gobKey : string;
  gobValue : GoValue;
  gobRelevantTimestamp : Z;
  gobExpiration : Z
}.

#[global] Instance GobEntry_eq_dec : EqDecision GobEntry.
Proof. solve_decision. Defined.

(** A snapshot is the encoded [map[string]*Entry]. *)
Abbreviation Snapshot := (gmap string GobEntry).

(** A file holds a whole gob stream, or a stream that a failed write cut
    short (nothing at all, or a prefix of the stream). *)
Inductive FileContent :=
  | Complete (snap : Snapshot)
  | Truncated.

(** A file system maps a path to the content of the file stored there. *)
Abbreviation FileSystem := (gmap string FileContent).

(** What the operating system and the encoder answer during one call of
    [SaveToFile]: each of [os.OpenFile], [encoder.Encode] and [writer.Flush]
    can return an error. *)
Inductive SaveOutcome :=
  | SaveSucceeds
  | OpenFileFails (err : error)
  | EncodeFails (err : error)
  | FlushFails (err : error).

Definition gob_encode_entry (e : Entry) : GobEntry :=
  mkGobEntry (Key e) (Value e) (RelevantTimestamp e) (Expiration e).

Definition gob_Encode (c : Cache) : Snapshot :=
  (λ p, gob_encode_entry (deref c p)) <$> entries c.

(** [SaveToFile] opens the file with [O_CREATE|O_WRONLY|O_TRUNC], encodes
    the map into a buffered writer and flushes it.  When the file cannot be
    opened nothing is written; when the encoder or the flush fails the file
    has been truncated already and is left with a stream cut short; each
    error is returned to the caller.  The cache is only read. *)
Definition SaveToFile (path : string) (c : Cache) (fs : FileSystem)
    (io : SaveOutcome) : FileSystem * option error :=
  match io with
  | OpenFileFails err => (fs, Some err)
  | EncodeFails err => (<[path := Truncated]> fs, Some err)
  | FlushFails err => (<[path := Truncated]> fs, Some err)
  | SaveSucceeds => (<[path := Complete (gob_Encode c)]> fs, None)
  end.

(** [decoder.Decode(&cache.entries)].  The destination map is never nil
    ([NewCache] and [Clear] both make one), and encoding/gob decodes into an
    existing map by storing every decoded pair into it: each pair gets a
    freshly allocated [Entry] whose links are nil, a key already present is
    rebound to the new entry, and a key the stream does not mention keeps
    the entry it had. *)
Definition gob_decode_pair (c : Cache) (kv : string * GobEntry) : Cache :=
  let p := next_loc c in
  let c := alloc (mkEntry (gobKey kv.2) (gobValue kv.2) (gobRelevantTimestamp kv.2)
                          (gobExpiration kv.2) None None) c in
  set_entries (<[kv.1 := p]> (entries c)) c.

Definition gob_Decode (snap : Snapshot) (c : Cache) : Cache :=
  foldl gob_decode_pair c (map_to_list snap).

(** [sort.Slice] is not stable and Go ranges over a map in no fixed order, so
    all that is known of the sorted slice is the contract of [sort.Slice]:
    it is a permutation of its input in which no element is less than an
    earlier one. *)
Class SliceSorter := {
  sort_Slice : (loc → loc → bool) → list loc → list loc;
  sort_Slice_perm : ∀ less l, sort_Slice less l ≡ₚ l;
  sort_Slice_sorted : ∀ (f : loc → Z) l,
    StronglySorted (λ a b, f a ≤ f b) (sort_Slice (λ a b, f a <? f b) l)
}.

Section Persistence.
Context `{SizeModel} `{SliceSorter}.

(** [entries[i].RelevantTimestamp.Before(entries[j].RelevantTimestamp)] *)
Definition timestamp_of (c : Cache) (p : loc) : Z := RelevantTimestamp (deref c p).

Definition before (c : Cache) (a b : loc) : bool :=
  timestamp_of c a <? timestamp_of c b.

(** One iteration of the relinking loop; the accumulator carries the local
    variable [previous]. *)
Definition relink_step (acc : option loc * Cache) (current : loc)
  : option loc * Cache :=
  let c := acc.2 in
  let c :=
    match acc.1 with
    | None => set_head (Some current) (set_tail (Some current) c)
    | Some p =>
      let c := update p (set_next (Some current)) c in
      let c := update current (set_previous (Some p)) c in
      set_head (Some current) c
    end in
  let c :=
    if memory_bounded c then
      set_memoryUsage (Int.add (memoryUsage c) (SizeInBytes (deref c current))) c
    else c in
  (Some current, c).

Definition relink (sorted : list loc) (c : Cache) : Cache :=
  (foldl relink_step (None, c) sorted).2.

(** The slice [ReadFromFile] sorts: the values of the map, oldest first. *)
Definition sorted_entries (c : Cache) : list loc :=
  sort_Slice (before c) (map_to_list (entries c)).*2.

(** "Relink the nodes from tail to head" *)
Definition rebuild (c : Cache) : Cache := relink (sorted_entries c) c.

(** "Evict what needs to be evicted": the two loops that close
    [ReadFromFile], with the count of evictions. *)
Definition enforce_bounds (fuel : nat) (c : Cache) : option (Z * Cache) :=
  if negb (size_bounded c) && negb (memory_bounded c) then Some (0, c)
  else
    match
      (if size_bounded c && over_size c then evict_while over_size fuel 0 c
       else Some (0, c))
    with
    | None => None
    | Some (numberOfEvictions, c) =>
      if memory_bounded c && (maxMemoryUsage c <? memoryUsage c) then
        evict_while over_memory fuel numberOfEvictions c
      else Some (numberOfEvictions, c)
    end.

(** [ReadFromFile].  The failures modelled are a path with no file, where
    [os.OpenFile] fails, and a stream cut short, where [decoder.Decode]
    fails ([io.ErrUnexpectedEOF], or [io.EOF] on an empty file) before it
    has stored anything into the map: the decoder reads a whole message
    before it decodes it.  Both return [(0, err)] and leave the cache as it
    was. *)
Definition ReadFromFile (fuel : nat) (path : string) (fs : FileSystem) (c : Cache)
  : option (Z * option error * Cache) :=
  match fs !! path with
  | None => Some (0, Some ErrNoSuchFile, c)
  | Some Truncated => Some (0, Some ErrUnexpectedEOF, c)
  | Some (Complete snap) =>
    match enforce_bounds fuel (rebuild (gob_Decode snap c)) with
    | Some (numberOfEvictions, c) => Some (numberOfEvictions, None, c)
    | None => None
    end
  end.


(** ** The public surface *)



End Persistence.

(** ** A concrete size model and a concrete sorter *)

Definition sizeOfGoValue (v : GoValue) : Z :=
  match v with
  | VNil => 8
  | VString s => Z.of_nat (String.length s)
  | VInt _ => 8
  | VBool _ => 1
  end.

#[program] Definition demoSizeModel : SizeModel :=
  {| entryOverhead := 56; sizeOfValue := sizeOfGoValue |}.
Next Obligation. lia. Qed.
Next Obligation. intros []; simpl; lia. Qed.

Fixpoint insert_sorted (less : loc → loc → bool) (x : loc) (l : list loc) : list loc :=
  match l with
  | [] => [x]
  | y :: l' => if less x y then x :: l else y :: insert_sorted less x l'
  end.

Definition insertion_sort (less : loc → loc → bool) (l : list loc) : list loc :=
  foldr (insert_sorted less) [] l.

(** * Specification vocabulary *)

(** ** Doubly-linked segments in the store *)

Definition hd_or (ls : list loc) (n : option loc) : option loc :=
  match ls with
  | [] => n
  | y :: _ => Some y
  end.

Definition last_or (p : option loc) (ls : list loc) : option loc :=
  match last ls with
  | Some y => Some y
  | None => p
  end.

(** [dlseg h p ls n]: the objects [ls] are chained in this order by their
    [next] and [previous] fields; [p] is what the first one has as
    [previous] and [n] what the last one has as [next]. *)
Fixpoint dlseg (h : gmap loc Entry) (p : option loc) (ls : list loc)
    (n : option loc) : Prop :=
  match ls with
  | [] => True
  | x :: ls' =>
    previous (h !!! x) = p ∧ next (h !!! x) = hd_or ls' n ∧ dlseg h (Some x) ls' n
  end.

(** ** Representation invariant *)

(** [linked c ls]: the recency list of [c], read from the tail to the head,
    is [ls]. *)
Definition linked (c : Cache) (ls : list loc) : Prop :=
  NoDup ls ∧ dlseg (store c) None ls None ∧
  tail c = hd_error ls ∧ head c = last ls.

(** [indexed c ls]: the map binds exactly the objects of the list, each under
    its own key. *)
Definition indexed (c : Cache) (ls : list loc) : Prop :=
  ∀ k p, entries c !! k = Some p ↔ p ∈ ls ∧ Key (deref c p) = k.

(** [repr c ls]: invariants I1 to I3 of the data model, with the list made
    explicit. *)
Definition repr (c : Cache) (ls : list loc) : Prop :=
  linked c ls ∧ indexed c ls ∧ Forall (λ p, (p < next_loc c)%nat) ls.

Definition well_formed (c : Cache) : Prop := ∃ ls, repr c ls.

(** An object that is in no list. *)
Definition detached (c : Cache) (p : loc) : Prop :=
  next (deref c p) = None ∧ previous (deref c p) = None.

(** Two caches agree on the exported fields of every object. *)
Definition same_payload (c c' : Cache) : Prop :=
  ∀ p, gob_encode_entry (deref c' p) = gob_encode_entry (deref c p).

(** Two caches agree on everything but the store and the list endpoints. *)
Definition same_frame (c c' : Cache) : Prop :=
  maxSize c' = maxSize c ∧ maxMemoryUsage c' = maxMemoryUsage c ∧
  evictionPolicy c' = evictionPolicy c ∧ stats c' = stats c ∧
  entries c' = entries c ∧ memoryUsage c' = memoryUsage c ∧
  next_loc c' = next_loc c.

Definition same_config (c c' : Cache) : Prop :=
  maxSize c' = maxSize c ∧ maxMemoryUsage c' = maxMemoryUsage c ∧
  evictionPolicy c' = evictionPolicy c.

(** The size bound, I6. *)
Definition size_ok (c : Cache) : Prop :=
  size_bounded c = true → len c ≤ maxSize c.


(** ** Snapshots *)

(** The object gob allocates for one decoded entry. *)
Definition decoded_entry (g : GobEntry) : Entry :=
  mkEntry (gobKey g) (gobValue g) (gobRelevantTimestamp g) (gobExpiration g) None None.

(** A snapshot written by [SaveToFile] files every entry under its own key. *)
Definition snapshot_valid (snap : gmap string GobEntry) : Prop :=
  ∀ k g, snap !! k = Some g → gobKey g = k.



(** The sum of the sizes of the entries [ls]. *)
Definition sum_list_Z (l : list Z) : Z := foldr Z.add 0 l.

(** ** A decision procedure for the representation invariant *)

Fixpoint dlseg_check (h : gmap loc Entry) (p : option loc) (ls : list loc)
    (n : option loc) : bool :=
  match ls with
  | [] => true
  | x :: ls' =>
    bool_decide (previous (h !!! x) = p) &&
    bool_decide (next (h !!! x) = hd_or ls' n) &&
    dlseg_check h (Some x) ls' n
  end.

Definition repr_check (c : Cache) (ls : list loc) : bool :=
  bool_decide (NoDup ls) && dlseg_check (store c) None ls None &&
  bool_decide (tail c = hd_error ls) && bool_decide (head c = last ls) &&
  forallb (λ kp, bool_decide (kp.2 ∈ ls) && bool_decide (Key (deref c kp.2) = kp.1))
          (map_to_list (entries c)) &&
  forallb (λ p, bool_decide (entries c !! Key (deref c p) = Some p)) ls &&
  forallb (λ p, bool_decide (p < next_loc c)%nat) ls.

(** ** Observations *)

(** The exported fields of the entries of a list, in order. *)
Definition payloads (c : Cache) (ls : list loc) : list GobEntry :=
  (λ p, gob_encode_entry (deref c p)) <$> ls.

Definition head_key (c : Cache) : option string := (λ p, Key (deref c p)) <$> head c.
Definition tail_key (c : Cache) : option string := (λ p, Key (deref c p)) <$> tail c.
Definition value_of (c : Cache) (k : string) : option GoValue :=
  (λ p, Value (deref c p)) <$> entries c !! k.

Section SpecDefs.
Context `{SizeModel}.

(** [memoryUsage] after [+=] over the entries [ls], starting from [m]. *)
Definition add_sizes (c : Cache) (m : Z) (ls : list loc) : Z :=
  foldl (λ m p, Int.add m (SizeInBytes (deref c p))) m ls.

Definition sum_sizes (c : Cache) (ls : list loc) : Z :=
  sum_list_Z ((λ p, SizeInBytes (deref c p)) <$> ls).

(** The sum of the sizes of all entries in the map: what [memoryUsage] is
    meant to equal (I5). *)
Definition entries_size (c : Cache) : Z :=
  sum_sizes c (map_to_list (entries c)).*2.

(** I5: when memory is bounded, [memoryUsage] is the sum of the sizes of the
    entries, as a machine integer; [accounted] says it of the entries of
    the list, [memory_ok] of the entries of the map. *)
Definition accounted (c : Cache) (ls : list loc) : Prop :=
  memory_bounded c = true → memoryUsage c = Int.wrap (sum_sizes c ls).





(** [k] evictions in a row, and what they do to [numberOfEvictions]. *)
Definition evictN (k : nat) (c : Cache) : Cache := Nat.iter k evict c.

Definition incrN (k : nat) (n : Z) : Z := Nat.iter k (λ m, Int.add m 1) n.

(** The size of an entry is a function of its exported fields. *)
Definition payload_size (g : GobEntry) : Z :=
  entryOverhead + Z.of_nat (String.length (gobKey g)) + sizeOfValue (gobValue g).

End SpecDefs.

(** ** The insertion sort meets the contract of [sort.Slice] *)

Lemma insert_sorted_perm less x l : insert_sorted less x l ≡ₚ x :: l.
Proof.
  induction l as [|y l IH]; simpl; [done|].
  destruct (less x y); [done|].
  rewrite IH. apply Permutation_swap.
Qed.

Lemma insertion_sort_perm less l : insertion_sort less l ≡ₚ l.
Proof.
  induction l as [|x l IH]; simpl; [done|].
  rewrite insert_sorted_perm. by rewrite IH.
Qed.

Lemma insert_sorted_sorted (f : loc → Z) x l :
  StronglySorted (λ a b, f a ≤ f b) l →
  StronglySorted (λ a b, f a ≤ f b) (insert_sorted (λ a b, f a <? f b) x l).
Proof.
  induction 1 as [|y l Hs IH Hy]; simpl.
  - repeat constructor.
  - destruct (Z.ltb_spec (f x) (f y)) as [Hlt|Hge].
    + constructor; [by constructor|].
      constructor; [lia|].
      eapply Forall_impl; [exact Hy|]. simpl. intros; lia.
    + constructor; [done|].
      rewrite insert_sorted_perm. by constructor.
Qed.

Lemma insertion_sort_sorted (f : loc → Z) l :
  StronglySorted (λ a b, f a ≤ f b) (insertion_sort (λ a b, f a <? f b) l).
Proof.
  induction l as [|x l IH]; simpl; [constructor|].
  by apply insert_sorted_sorted.
Qed.

Definition insertionSorter : SliceSorter :=
  {| sort_Slice := insertion_sort;
     sort_Slice_perm := insertion_sort_perm;
     sort_Slice_sorted := insertion_sort_sorted |}.


(** ** Concrete inputs *)

Definition snapshot_valid_check (snap : gmap string GobEntry) : bool :=
  forallb (λ kg, bool_decide (gobKey kg.2 = kg.1)) (map_to_list snap).

Section ConcreteInputs.

(** The runs use the insertion sort and a size model with an overhead of 56
    bytes per entry. *)
#[local] Existing Instance demoSizeModel.
#[local] Existing Instance insertionSorter.

(** [Set("a","1")], [Set("b","2")], [Set("c","3")] on a new cache, one
    nanosecond apart. *)
Definition cache_abc : Cache :=
  default NewCache
    (c ← Set_ 4 "a" (VString "1") 1 1 NewCache;
     c ← Set_ 4 "b" (VString "2") 2 2 c;
     Set_ 4 "c" (VString "3") 3 3 c).

(** [Set("a","1")], [Set("b","2")], then [Set("a","3")]: the update moves
    ["a"] to the head and leaves its timestamp alone. *)
Definition cache_aba : Cache :=
  default NewCache
    (c ← Set_ 4 "a" (VString "1") 1 1 NewCache;
     c ← Set_ 4 "b" (VString "2") 2 2 c;
     Set_ 4 "a" (VString "3") 3 3 c).

(** The same three writes as [cache_abc] under a memory bound of 1000 bytes. *)
Definition cache_abc_bounded : Cache :=
  default NewCache
    (c ← Set_ 4 "a" (VString "1") 1 1 (WithMaxMemoryUsage 1000 NewCache);
     c ← Set_ 4 "b" (VString "2") 2 2 c;
     Set_ 4 "c" (VString "3") 3 3 c).

(** One entry under a memory bound of 1000 bytes. *)
Definition cache_a_bounded : Cache :=
  default NewCache (Set_ 4 "a" (VString "1") 1 1 (WithMaxMemoryUsage 1000 NewCache)).

(** One entry written at time 10 with a TTL of 5 nanoseconds. *)
Definition cache_ttl : Cache :=
  default NewCache (SetWithTTL 4 "t" (VString "v") 5 10 10 NewCache).

(** The ten entries of the persistence test: keys "0" to "9", values "v0" to
    "v9", written one nanosecond apart. *)
Definition ten_writes : list (string * GoValue * (Z * Z)) :=
  [("0", VString "v0", (1, 1)); ("1", VString "v1", (2, 2));
   ("2", VString "v2", (3, 3)); ("3", VString "v3", (4, 4));
   ("4", VString "v4", (5, 5)); ("5", VString "v5", (6, 6));
   ("6", VString "v6", (7, 7)); ("7", VString "v7", (8, 8));
   ("8", VString "v8", (9, 9)); ("9", VString "v9", (10, 10))].

Definition cache_ten : Cache := default NewCache (SetAll 4 ten_writes NewCache).

Definition ten_snapshot : gmap string GobEntry := gob_Encode cache_ten.

(** A snapshot that holds the single key ["new"]. *)
Definition new_only_snapshot : gmap string GobEntry :=
  {["new" := mkGobEntry "new" (VString "n") 9 NoExpiration]}.

(** A snapshot that holds the two keys ["n1"] and ["n2"]. *)
Definition two_new_snapshot : gmap string GobEntry :=
  {["n1" := mkGobEntry "n1" (VString "x") 5 NoExpiration;
    "n2" := mkGobEntry "n2" (VString "y") 6 NoExpiration]}.

End ConcreteInputs.
(** * Verification *)

(** ** Doubly-linked segments *)

Lemma hd_or_app l1 l2 n : hd_or (l1 ++ l2) n = hd_or l1 (hd_or l2 n).
Proof. by destruct l1. Qed.

Lemma last_or_cons p x ls : last_or p (x :: ls) = last_or (Some x) ls.
Proof. unfold last_or. rewrite last_cons. by destruct (last ls). Qed.

Lemma last_or_snoc p ls x : last_or p (ls ++ [x]) = Some x.
Proof. unfold last_or. by rewrite last_snoc. Qed.

Lemma last_or_app p l1 l2 : last_or p (l1 ++ l2) = last_or (last_or p l1) l2.
Proof. unfold last_or. rewrite last_app. by destruct (last l2). Qed.

Lemma dlseg_app h p l1 l2 n :
  dlseg h p (l1 ++ l2) n ↔ dlseg h p l1 (hd_or l2 n) ∧ dlseg h (last_or p l1) l2 n.
Proof.
  revert p. induction l1 as [|x l1 IH]; intros p; simpl.
  - unfold last_or; simpl. tauto.
  - rewrite IH, hd_or_app, last_or_cons. tauto.
Qed.

Lemma dlseg_frame h h' p ls n :
  (∀ x, x ∈ ls → next (h' !!! x) = next (h !!! x) ∧
                 previous (h' !!! x) = previous (h !!! x)) →
  dlseg h p ls n → dlseg h' p ls n.
Proof.
  revert p. induction ls as [|x ls IH]; intros p Hag; simpl; [done|].
  intros (Hp & Hn & Hrest).
  destruct (Hag x) as [-> ->]; [left|].
  repeat split; try done. apply IH; [|done].
  intros y Hy. apply Hag. by right.
Qed.

Lemma dlseg_insert_fresh h p ls n x e :
  x ∉ ls → dlseg h p ls n → dlseg (<[x := e]> h) p ls n.
Proof.
  intros Hx. apply dlseg_frame. intros y Hy.
  rewrite lookup_total_insert_ne; [done|]. intros ->. done.
Qed.

Lemma dlseg_set_next_last h p ls x n n' :
  x ∉ ls → dlseg h p (ls ++ [x]) n →
  dlseg (<[x := set_next n' (h !!! x)]> h) p (ls ++ [x]) n'.
Proof.
  intros Hx. rewrite !dlseg_app. simpl. intros (H1 & Hp & _ & _).
  split; [by apply dlseg_insert_fresh|].
  by rewrite lookup_total_insert_eq.
Qed.

Lemma dlseg_set_previous_first h p p' ls x n :
  x ∉ ls → dlseg h p (x :: ls) n →
  dlseg (<[x := set_previous p' (h !!! x)]> h) p' (x :: ls) n.
Proof.
  intros Hx. simpl. intros (_ & Hn & Hrest).
  rewrite lookup_total_insert_eq. simpl.
  repeat split; try done. by apply dlseg_insert_fresh.
Qed.

Lemma deref_update p q f c :
  deref (update p f c) q = if decide (p = q) then f (deref c p) else deref c q.
Proof. unfold deref, update. simpl. by rewrite lookup_total_insert. Qed.

Lemma deref_update_eq p f c : deref (update p f c) p = f (deref c p).
Proof. rewrite deref_update. by rewrite decide_True. Qed.

Lemma deref_update_ne p q f c : p ≠ q → deref (update p f c) q = deref c q.
Proof. intros. rewrite deref_update. by rewrite decide_False. Qed.

Lemma ptr_eqb_true a b : ptr_eqb a b = true ↔ a = b.
Proof. unfold ptr_eqb. apply bool_decide_eq_true. Qed.

Lemma ptr_eqb_false a b : ptr_eqb a b = false ↔ a ≠ b.
Proof. unfold ptr_eqb. apply bool_decide_eq_false. Qed.

Lemma ptr_eqb_refl a : ptr_eqb a a = true.
Proof. by apply ptr_eqb_true. Qed.

Lemma last_or_None ls : last_or None ls = last ls.
Proof. unfold last_or. by destruct (last ls). Qed.

Lemma hd_or_None ls : hd_or ls None = hd_error ls.
Proof. by destruct ls. Qed.

Lemma dlseg_relink_pred h l1 x n' :
  NoDup l1 → dlseg h None l1 x →
  dlseg (match last l1 with
         | Some p => <[p := set_next n' (h !!! p)]> h
         | None => h
         end) None l1 n'.
Proof.
  intros Hnd Hseg. destruct (last l1) as [p|] eqn:Hlast.
  - apply last_Some in Hlast as [l1' ->].
    apply NoDup_app in Hnd as (_ & Hd & _).
    eapply dlseg_set_next_last; [|done].
    intros Hin. apply (Hd p Hin). by left.
  - apply last_None in Hlast as ->. done.
Qed.

Lemma dlseg_relink_succ h l2 x p' :
  NoDup l2 → dlseg h x l2 None →
  dlseg (match hd_error l2 with
         | Some n => <[n := set_previous p' (h !!! n)]> h
         | None => h
         end) p' l2 None.
Proof.
  intros Hnd Hseg. destruct l2 as [|n l2]; simpl; [done|].
  apply NoDup_cons in Hnd as [Hn _].
  by eapply (dlseg_set_previous_first _ _ _ _ _ _ Hn).
Qed.

Lemma hd_error_mid (l1 : list loc) x l2 :
  NoDup (l1 ++ x :: l2) → hd_error (l1 ++ x :: l2) = Some x ↔ l1 = [].
Proof.
  intros Hnd. split; [|by intros ->].
  destruct l1 as [|a l1]; [done|]. simpl. intros [= ->].
  apply NoDup_cons in Hnd as [Hnd _]. set_solver.
Qed.

Lemma last_mid (l1 : list loc) x l2 :
  NoDup (l1 ++ x :: l2) → last (l1 ++ x :: l2) = Some x ↔ l2 = [].
Proof.
  intros Hnd. split; [|intros ->; apply last_snoc].
  rewrite last_app_cons. destruct l2 as [|b l2]; [done|].
  rewrite last_cons_cons. intros Hl. apply last_Some in Hl as [l' Hl].
  apply NoDup_app in Hnd as (_ & _ & Hnd).
  apply NoDup_cons in Hnd as [Hnd _]. rewrite Hl in Hnd. set_solver.
Qed.

Lemma last_app_ne (l1 l2 : list loc) : l2 ≠ [] → last (l1 ++ l2) = last l2.
Proof.
  intros Hne. rewrite last_app. destruct (last l2) eqn:E; [done|].
  by apply last_None in E.
Qed.

Lemma hd_error_app_ne (l1 l2 : list loc) : l1 ≠ [] → hd_error (l1 ++ l2) = hd_error l1.
Proof. by destruct l1. Qed.

Lemma same_frame_refl c : same_frame c c.
Proof. by repeat split. Qed.

Lemma same_frame_trans c1 c2 c3 : same_frame c1 c2 → same_frame c2 c3 → same_frame c1 c3.
Proof. unfold same_frame. intuition congruence. Qed.

Lemma same_payload_refl c : same_payload c c.
Proof. by intros p. Qed.

Lemma same_payload_trans c1 c2 c3 :
  same_payload c1 c2 → same_payload c2 c3 → same_payload c1 c3.
Proof. intros H1 H2 p. by rewrite H2, H1. Qed.

Lemma update_same_frame p f c : same_frame c (update p f c).
Proof. by repeat split. Qed.

Lemma update_same_payload p f c :
  (∀ e, gob_encode_entry (f e) = gob_encode_entry e) → same_payload c (update p f c).
Proof.
  intros Hf q. rewrite deref_update. case_decide; [subst; apply Hf|done].
Qed.

Lemma remove_linked c l1 x l2 :
  linked c (l1 ++ x :: l2) →
  linked (removeExistingEntryReferences x c) (l1 ++ l2) ∧
  next (deref (removeExistingEntryReferences x c) x) = None ∧
  previous (deref (removeExistingEntryReferences x c) x) = None ∧
  same_payload c (removeExistingEntryReferences x c) ∧
  same_frame c (removeExistingEntryReferences x c).
Proof.
  intros (Hnd & Hseg & Ht & Hh).
  pose proof Hnd as Hnd'.
  apply NoDup_app in Hnd' as (Hnd1 & Hdisj & Hnd2).
  apply NoDup_cons in Hnd2 as [Hx2 Hnd2].
  assert (Hx1 : x ∉ l1) by (intros Hin; apply (Hdisj x Hin); left).
  apply dlseg_app in Hseg as (Hs1 & Hs2).
  destruct Hs2 as (Hp & Hn & Hs2).
  rewrite last_or_None in Hp. rewrite hd_or_None in Hn.
  unfold removeExistingEntryReferences.
  set (c1 := if ptr_eqb (tail c) (Some x) && ptr_eqb (head c) (Some x) then _ else _).
  assert (Hc1 : store c1 = store c ∧ tail c1 = hd_error (l1 ++ l2) ∧
                head c1 = last (l1 ++ l2) ∧ same_frame c c1).
  { subst c1. unfold deref. rewrite Hp, Hn.
    unfold ptr_eqb.
    destruct (bool_decide_reflect (tail c = Some x)) as [E1|E1];
      destruct (bool_decide_reflect (head c = Some x)) as [E2|E2];
      rewrite Ht in E1; rewrite Hh in E2;
      pose proof (hd_error_mid _ _ _ Hnd) as Hm1; pose proof (last_mid _ _ _ Hnd) as Hm2;
      cbn [andb]; [apply Hm1 in E1; apply Hm2 in E2|apply Hm1 in E1|apply Hm2 in E2|];
      try (assert (l1 ≠ []) by tauto); try (assert (l2 ≠ []) by tauto).
    - subst. done.
    - subst. cbn [app]. repeat split; try done.
      cbn [head set_tail]. rewrite Hh. cbn [app].
      destruct l2; [done|]. by rewrite last_cons_cons.
    - subst. rewrite app_nil_r. repeat split; try done.
      cbn [tail set_head]. rewrite Ht. by apply hd_error_app_ne.
    - repeat split; try done.
      + rewrite Ht. rewrite !hd_error_app_ne; done.
      + rewrite Hh. rewrite !last_app_ne; try done.
        destruct l2; [done|]. by rewrite last_cons_cons. }
  destruct Hc1 as (Hst1 & Ht1 & Hh1 & Hf1).
  assert (Hd1 : ∀ q, deref c1 q = deref c q) by (intros; unfold deref; by rewrite Hst1).
  clearbody c1.
  assert (Hpx : previous (deref c1 x) = last l1) by (rewrite Hd1; exact Hp).
  assert (Hnx : next (deref c1 x) = hd_error l2) by (rewrite Hd1; exact Hn).
  rewrite Hpx, Hnx.
  set (c2 := match last l1 with Some p => _ | None => c1 end).
  assert (Hc2 : dlseg (store c2) None l1 (hd_error l2) ∧
                dlseg (store c2) (Some x) l2 None ∧
                deref c2 x = deref c x ∧ tail c2 = tail c1 ∧ head c2 = head c1 ∧
                same_frame c1 c2 ∧ same_payload c1 c2).
  { subst c2. pose proof (dlseg_relink_pred (store c) l1 _ (hd_error l2) Hnd1 Hs1) as Hr.
    destruct (last l1) as [p|] eqn:Hlast.
    - assert (Hpin : p ∈ l1).
      { apply last_Some in Hlast as [l' ->]. set_solver. }
      assert (p ≠ x) by (intros ->; done).
      assert (p ∉ l2) by (intros Hin; apply (Hdisj p Hpin); by right).
      refine (conj _ (conj _ (conj _ (conj _ (conj _ (conj _ _)))))); try done.
      + unfold update, deref. cbn [store set_store]. by rewrite Hst1.
      + unfold update. cbn [store set_store]. rewrite Hst1.
        by apply dlseg_insert_fresh.
      + rewrite deref_update_ne; done.
      + apply update_same_payload. by intros [].
    - refine (conj _ (conj _ (conj _ (conj _ (conj _ (conj _ _)))))); try done.
      all: by rewrite Hst1. }
  destruct Hc2 as (Hs1' & Hs2' & Hdx2 & Ht2 & Hh2 & Hf2 & Hpl2).
  clearbody c2. rewrite Hdx2. fold (deref c x) in Hp, Hn. rewrite Hp, Hn.
  set (c3 := match hd_error l2 with Some n => _ | None => c2 end).
  assert (Hc3 : dlseg (store c3) None l1 (hd_error l2) ∧
                dlseg (store c3) (last l1) l2 None ∧
                tail c3 = tail c1 ∧ head c3 = head c1 ∧
                same_frame c2 c3 ∧ same_payload c2 c3).
  { subst c3. pose proof (dlseg_relink_succ (store c2) l2 _ (last l1) Hnd2 Hs2') as Hr.
    destruct l2 as [|n l2]; cbn [hd_error] in *; [done|].
    assert (n ∉ l1) by (intros Hin; apply (Hdisj n Hin); set_solver).
    refine (conj _ (conj _ (conj _ (conj _ (conj _ _))))); try done.
    + unfold update. cbn [store set_store]. by apply dlseg_insert_fresh.
    + apply update_same_payload. by intros []. }
  destruct Hc3 as (Hs1'' & Hs2'' & Ht3 & Hh3 & Hf3 & Hpl3).
  clearbody c3.
  refine (conj (conj _ (conj _ (conj _ _))) (conj _ (conj _ (conj _ _)))).
  - apply NoDup_app. repeat split; try done. intros y Hy1 Hy2.
    apply (Hdisj y Hy1). by right.
  - unfold update. cbn [store set_store]. apply dlseg_app.
    rewrite hd_or_None, last_or_None.
    split; do 2 (apply dlseg_insert_fresh; [done|]); done.
  - cbn. congruence.
  - cbn. congruence.
  - rewrite deref_update_eq. cbn [next set_previous]. by rewrite deref_update_eq.
  - by rewrite deref_update_eq.
  - eapply same_payload_trans; [|apply update_same_payload; by intros []].
    eapply same_payload_trans; [|apply update_same_payload; by intros []].
    eapply same_payload_trans; [|exact Hpl3].
    eapply same_payload_trans; [|exact Hpl2].
    intros q. by rewrite Hd1.
  - eapply same_frame_trans; [|apply update_same_frame].
    eapply same_frame_trans; [|apply update_same_frame].
    eapply same_frame_trans; [|exact Hf3].
    eapply same_frame_trans; [|exact Hf2]. done.
Qed.

Lemma same_payload_Key c c' p : same_payload c c' → Key (deref c' p) = Key (deref c p).
Proof. intros Hp. specialize (Hp p). by injection Hp. Qed.

Lemma indexed_same_payload c c' ls :
  same_payload c c' → entries c' = entries c → indexed c ls → indexed c' ls.
Proof.
  intros Hp He Hi k p. rewrite He, (same_payload_Key _ _ _ Hp). apply Hi.
Qed.

Lemma indexed_inj c ls p q :
  indexed c ls → p ∈ ls → q ∈ ls → Key (deref c p) = Key (deref c q) → p = q.
Proof.
  intros Hi Hp Hq Hk.
  assert (H1 : entries c !! Key (deref c p) = Some p) by by apply Hi.
  assert (H2 : entries c !! Key (deref c p) = Some q) by by apply Hi.
  congruence.
Qed.

Lemma indexed_delete c c' l1 x l2 :
  NoDup (l1 ++ x :: l2) →
  indexed c (l1 ++ x :: l2) → same_payload c c' →
  entries c' = delete (Key (deref c x)) (entries c) →
  indexed c' (l1 ++ l2).
Proof.
  intros Hnd Hi Hp He k p.
  assert (Hx : x ∈ l1 ++ x :: l2) by set_solver.
  assert (Hxn : x ∉ l1 ++ l2).
  { apply NoDup_app in Hnd as (_ & Hd & Hnd). apply NoDup_cons in Hnd as [? _].
    set_solver. }
  rewrite He, (same_payload_Key _ _ _ Hp). rewrite lookup_delete_Some.
  split.
  - intros (Hne & Hl). apply Hi in Hl as (Hin & Hk). split; [|done].
    assert (p ≠ x) by congruence. set_solver.
  - intros (Hin & Hk).
    assert (Hin' : p ∈ l1 ++ x :: l2) by set_solver.
    split; [|by apply Hi]. intros Hkx. rewrite <- Hk in Hkx.
    assert (x = p) by (by eapply indexed_inj). subst. done.
Qed.

Lemma linked_ext c c' ls :
  store c' = store c → head c' = head c → tail c' = tail c →
  linked c ls → linked c' ls.
Proof. unfold linked. intros -> -> ->. done. Qed.

Lemma indexed_ext c c' ls :
  store c' = store c → entries c' = entries c → indexed c ls → indexed c' ls.
Proof. unfold indexed, deref. intros -> ->. done. Qed.

Lemma same_payload_ext c c' c'' :
  store c'' = store c' → same_payload c c' → same_payload c c''.
Proof. unfold same_payload, deref. intros ->. done. Qed.

Section EngineFacts.
Context `{SizeModel}.

Lemma len_pos_of_lookup c k p : entries c !! k = Some p → (len c =? 0) = false.
Proof.
  intros Hl. apply Z.eqb_neq. unfold len. intros Hz.
  assert (size (entries c) = 0%nat) as Hs by lia.
  apply map_size_empty_iff in Hs. rewrite Hs in Hl. by rewrite lookup_empty in Hl.
Qed.

Lemma evict_repr c x ls :
  repr c (x :: ls) →
  repr (evict c) ls ∧
  entries (evict c) = delete (Key (deref c x)) (entries c) ∧
  entries c !! Key (deref c x) = Some x ∧
  same_payload c (evict c) ∧
  maxSize (evict c) = maxSize c ∧ maxMemoryUsage (evict c) = maxMemoryUsage c ∧
  evictionPolicy (evict c) = evictionPolicy c ∧
  next_loc (evict c) = next_loc c ∧
  stats (evict c) = mkStatistics (EvictedKeys (stats c) + 1) (Hits (stats c)) (Misses (stats c)) ∧
  memoryUsage (evict c) =
    (if memory_bounded c then Int.sub (memoryUsage c) (SizeInBytes (deref c x))
     else memoryUsage c).
Proof.
  intros (Hl & Hi & Ha).
  assert (Hex : entries c !! Key (deref c x) = Some x) by (apply Hi; set_solver).
  destruct (remove_linked c [] x ls Hl) as (Hl' & _ & _ & Hp & Hf).
  pose proof Hl as (Hnd & _ & Ht & _). cbn [hd_error app] in Ht.
  unfold evict. rewrite Ht. rewrite (len_pos_of_lookup _ _ _ Hex).
  set (c1 := removeExistingEntryReferences x c) in *.
  destruct Hf as (Hf1 & Hf2 & Hf3 & Hf4 & Hf5 & Hf6 & Hf7).
  assert (Hk : Key (deref c1 x) = Key (deref c x)) by by apply same_payload_Key.
  assert (Hsz : SizeInBytes (deref c1 x) = SizeInBytes (deref c x)).
  { unfold SizeInBytes. specialize (Hp x). injection Hp as -> -> _ _. done. }
  assert (Hmb : memory_bounded c1 = memory_bounded c)
    by (unfold memory_bounded; by rewrite Hf2).
  clearbody c1.
  unfold memory_bounded in *. cbn [maxMemoryUsage set_entries] in *.
  unfold deref in *. cbn [store set_entries].
  rewrite Hk, Hsz, Hmb.
  assert (Hgoal : ∀ c2, store c2 = store c1 → head c2 = head c1 → tail c2 = tail c1 →
            entries c2 = delete (Key (store c !!! x)) (entries c1) →
            next_loc c2 = next_loc c1 → repr c2 ls ∧ same_payload c c2).
  { intros c2 E1 E2 E3 E4 E5. split; [split; [|split]|].
    - by apply (linked_ext c1).
    - apply (indexed_delete c c2 [] x ls); [done|done| |by rewrite E4, Hf5].
      by apply (same_payload_ext c c1).
    - rewrite E5, Hf7. by apply Forall_cons in Ha as [_ Ha].
    - by apply (same_payload_ext c c1). }
  destruct (negb (maxMemoryUsage c =? NoMaxMemoryUsage)); cbn.
  all: match goal with |- repr ?c2 _ ∧ _ =>
         destruct (Hgoal c2) as [Hr Hpl]; try done end.
  all: refine (conj Hr (conj _ (conj Hex (conj Hpl _)))); rewrite ?Hf1, ?Hf2, ?Hf3, ?Hf4, ?Hf5, ?Hf6, ?Hf7; done.
Qed.

End EngineFacts.

Lemma deref_set_maxSize x c p : deref (set_maxSize x c) p = deref c p.
Proof. done. Qed.
Lemma deref_set_maxMemoryUsage x c p : deref (set_maxMemoryUsage x c) p = deref c p.
Proof. done. Qed.
Lemma deref_set_evictionPolicy x c p : deref (set_evictionPolicy x c) p = deref c p.
Proof. done. Qed.
Lemma deref_set_stats x c p : deref (set_stats x c) p = deref c p.
Proof. done. Qed.
Lemma deref_set_entries x c p : deref (set_entries x c) p = deref c p.
Proof. done. Qed.
Lemma deref_set_head x c p : deref (set_head x c) p = deref c p.
Proof. done. Qed.
Lemma deref_set_tail x c p : deref (set_tail x c) p = deref c p.
Proof. done. Qed.
Lemma deref_set_memoryUsage x c p : deref (set_memoryUsage x c) p = deref c p.
Proof. done. Qed.
Lemma deref_set_next_loc x c p : deref (set_next_loc x c) p = deref c p.
Proof. done. Qed.

Lemma deref_alloc e c p :
  deref (alloc e c) p = if decide (next_loc c = p) then e else deref c p.
Proof. unfold deref, alloc. cbn. by rewrite lookup_total_insert. Qed.

#[export] Hint Rewrite deref_set_maxSize deref_set_maxMemoryUsage deref_set_evictionPolicy
  deref_set_stats deref_set_entries deref_set_head deref_set_tail
  deref_set_memoryUsage deref_set_next_loc deref_update deref_alloc : cache.

(** Normalise reads through chains of writes and decide the aliasing
    questions they raise. *)
Ltac heap_simpl :=
  repeat (autorewrite with cache; repeat case_decide; subst; try done;
          cbn [Key Value RelevantTimestamp Expiration next previous
               set_Value set_RelevantTimestamp set_Expiration set_next set_previous]);
  try congruence.

Lemma same_payload_update c c' p f :
  (∀ e, gob_encode_entry (f e) = gob_encode_entry e) →
  same_payload c c' → same_payload c (update p f c').
Proof.
  intros Hf Hp. eapply same_payload_trans; [exact Hp|]. by apply update_same_payload.
Qed.

Ltac payload_tac :=
  repeat first
    [ assumption
    | apply same_payload_refl
    | apply same_payload_update; [by intros []|]
    | eapply same_payload_ext; [reflexivity|] ].

(** Appending an object at the head end of a chain. *)
Lemma dlseg_snoc h h' ls x :
  NoDup ls → x ∉ ls → dlseg h None ls None →
  (∀ q, q ∈ ls → previous (h' !!! q) = previous (h !!! q)) →
  (∀ q, q ∈ ls → last ls ≠ Some q → next (h' !!! q) = next (h !!! q)) →
  (∀ q, last ls = Some q → next (h' !!! q) = Some x) →
  previous (h' !!! x) = last ls → next (h' !!! x) = None →
  dlseg h' None (ls ++ [x]) None.
Proof.
  intros Hnd Hx Hseg Hprev Hnext Hlast Hpx Hnx.
  apply dlseg_app. split.
  - pose proof (dlseg_relink_pred h ls None (Some x) Hnd Hseg) as Hr.
    eapply dlseg_frame; [|exact Hr]. intros q Hq.
    destruct (last ls) as [p|] eqn:El.
    + destruct (decide (p = q)) as [->|Hne].
      * rewrite lookup_total_insert_eq. cbn. rewrite Hprev by done.
        by rewrite (Hlast q).
      * rewrite lookup_total_insert_ne by done.
        rewrite Hprev by done. rewrite Hnext; [done|done|congruence].
    + apply last_None in El. subst. by apply elem_of_nil in Hq.
  - cbn. rewrite last_or_None. done.
Qed.

Lemma linked_snoc c c' ls x :
  linked c ls → x ∉ ls →
  (∀ q, q ∈ ls → previous (deref c' q) = previous (deref c q)) →
  (∀ q, q ∈ ls → last ls ≠ Some q → next (deref c' q) = next (deref c q)) →
  (∀ q, last ls = Some q → next (deref c' q) = Some x) →
  previous (deref c' x) = last ls → next (deref c' x) = None →
  head c' = Some x → tail c' = hd_error (ls ++ [x]) →
  linked c' (ls ++ [x]).
Proof.
  intros (Hnd & Hseg & Ht & Hh) Hx H1 H2 H3 H4 H5 Hh' Ht'.
  refine (conj _ (conj _ (conj _ _))).
  - apply NoDup_app. repeat split; [done| |apply NoDup_singleton].
    intros y Hy Hy'. apply list_elem_of_singleton in Hy'. by subst.
  - by eapply (dlseg_snoc (store c)).
  - done.
  - by rewrite last_snoc.
Qed.

Lemma moveExistingEntryToHead_linked c l1 x l2 :
  linked c (l1 ++ x :: l2) →
  linked (moveExistingEntryToHead x c) (l1 ++ l2 ++ [x]) ∧
  same_payload c (moveExistingEntryToHead x c) ∧
  same_frame c (moveExistingEntryToHead x c).
Proof.
  intros Hl. pose proof Hl as (Hnd & Hseg & Ht & Hh).
  unfold moveExistingEntryToHead, ptr_eqb.
  destruct (bool_decide_reflect (Some x = head c)) as [E1|E1];
    destruct (bool_decide_reflect (Some x = tail c)) as [E2|E2]; cbn [andb negb].
  { (* the only entry of the list *)
    rewrite Ht in E2. rewrite Hh in E1. symmetry in E1, E2.
    apply (hd_error_mid _ _ _ Hnd) in E2. apply (last_mid _ _ _ Hnd) in E1. subst.
    rewrite bool_decide_eq_true_2 by (by rewrite Hh). cbn.
    split; [done|]. split; [apply same_payload_refl|apply same_frame_refl]. }
  all: destruct (remove_linked c l1 x l2 Hl) as (Hl' & Hnx & Hpx & Hp & Hf).
  all: set (c1 := removeExistingEntryReferences x c) in *; clearbody c1.
  all: assert (Hxn : x ∉ l1 ++ l2)
        by (apply NoDup_app in Hnd as (_ & Hd & Hnd); apply NoDup_cons in Hnd as [? _];
            set_solver).
  all: assert (Hne : l1 ++ l2 ≠ []).
  1,3,5: intros E; apply app_eq_nil in E as [-> ->]; cbn in *; congruence.
  all: pose proof Hl' as (Hnd' & Hseg' & Ht' & Hh').
  all: assert (Ehd : Some x ≠ head c1).
  1,3,5: rewrite Hh'; intros E; symmetry in E; apply last_Some in E as [l' E];
         apply Hxn; rewrite E; set_solver.
  all: rewrite bool_decide_eq_false_2 by done; cbn [negb].
  all: destruct (last (l1 ++ l2)) as [h|] eqn:El;
       [|by apply last_None in El].
  all: assert (Hhin : h ∈ l1 ++ l2)
        by (apply last_Some in El as [l' ->]; set_solver).
  all: assert (Hhx : h ≠ x) by (intros ->; done).
  all: cbn [head update set_store]; rewrite Hh'.
  all: rewrite app_assoc.
  all: refine (conj _ (conj _ _)).
  1,4,7: eapply (linked_snoc c1); [done|done|..]; rewrite ?El.
  all: try (intros q Hq; assert (q ≠ x) by (intros ->; done)).
  all: cbn [head tail set_head].
  all: heap_simpl.
  all: try (intros q [= <-]; heap_simpl).
  all: try (cbn [tail update set_store]; rewrite Ht'; by rewrite (hd_error_app_ne (l1 ++ l2))).
  all: try (eapply same_payload_ext; [reflexivity|]; payload_tac).
Qed.

(** ** The map and the list have the same objects *)

Lemma indexed_values_perm c ls :
  NoDup ls → indexed c ls → (map_to_list (entries c)).*2 ≡ₚ ls.
Proof.
  intros Hnd Hi. apply NoDup_Permutation; [|done|].
  - apply NoDup_fmap_2_strong; [|apply NoDup_map_to_list].
    intros [k1 p1] [k2 p2] H1 H2 Heq. cbn in Heq. subst p2.
    apply elem_of_map_to_list in H1, H2.
    apply Hi in H1 as [_ <-]. apply Hi in H2 as [_ <-]. done.
  - intros p. rewrite list_elem_of_fmap. split.
    + intros ([k p'] & -> & Hin). apply elem_of_map_to_list in Hin.
      by apply Hi in Hin as [? _].
    + intros Hp. exists (Key (deref c p), p). split; [done|].
      apply elem_of_map_to_list. by apply Hi.
Qed.

Lemma repr_size c ls : repr c ls → size (entries c) = length ls.
Proof.
  intros ((Hnd & _) & Hi & _).
  rewrite <- (Permutation_length (indexed_values_perm c ls Hnd Hi)).
  by rewrite length_fmap, length_map_to_list.
Qed.

Lemma repr_len c ls : repr c ls → len c = Z.of_nat (length ls).
Proof. intros Hr. unfold len. by rewrite (repr_size c ls). Qed.

Lemma gob_decode_list_spec kvs c :
  NoDup kvs.*1 →
  next_loc (foldl gob_decode_pair c kvs) = (next_loc c + length kvs)%nat ∧
  (∀ p, (p < next_loc c)%nat → deref (foldl gob_decode_pair c kvs) p = deref c p) ∧
  (∀ k, k ∉ kvs.*1 → entries (foldl gob_decode_pair c kvs) !! k = entries c !! k) ∧
  (∀ i k g, kvs !! i = Some (k, g) →
     entries (foldl gob_decode_pair c kvs) !! k = Some (next_loc c + i)%nat ∧
     deref (foldl gob_decode_pair c kvs) (next_loc c + i)%nat = decoded_entry g) ∧
  same_config c (foldl gob_decode_pair c kvs) ∧
  stats (foldl gob_decode_pair c kvs) = stats c ∧
  head (foldl gob_decode_pair c kvs) = head c ∧
  tail (foldl gob_decode_pair c kvs) = tail c ∧
  memoryUsage (foldl gob_decode_pair c kvs) = memoryUsage c.
Proof.
  revert c. induction kvs as [|[k0 g0] kvs IH]; intros c Hnd.
  - cbn. rewrite Nat.add_0_r. repeat split; try done.
    all: intros i k g Hl; by rewrite lookup_nil in Hl.
  - cbn [foldl]. apply NoDup_cons in Hnd as [Hk0 Hnd].
    set (c1 := gob_decode_pair c (k0, g0)).
    destruct (IH c1 Hnd) as (H1 & H2 & H3 & H4 & H5 & H6 & H7 & H8 & H9).
    assert (Hn1 : next_loc c1 = S (next_loc c)) by done.
    refine (conj _ (conj _ (conj _ (conj _ _)))).
    + rewrite H1, Hn1. cbn. lia.
    + intros p Hp. rewrite H2 by lia. subst c1. unfold gob_decode_pair.
      autorewrite with cache. rewrite decide_False by lia. done.
    + intros k Hk. cbn in Hk. apply not_elem_of_cons in Hk as [Hne Hk].
      rewrite H3 by done. subst c1. cbn. by rewrite lookup_insert_ne.
    + intros [|i] k g Hl; cbn in Hl.
      * injection Hl as -> ->. rewrite Nat.add_0_r. split.
        -- rewrite H3 by done. subst c1. cbn. by rewrite lookup_insert_eq.
        -- rewrite H2 by lia. subst c1. unfold gob_decode_pair.
           autorewrite with cache. by rewrite decide_True.
      * destruct (H4 i k g Hl) as [E1 E2]. rewrite Hn1 in E1, E2.
        replace (next_loc c + S i)%nat with (S (next_loc c) + i)%nat by lia. done.
    + rewrite H6, H7, H8, H9. destruct H5 as (E1 & E2 & E3). unfold same_config. rewrite E1, E2, E3. done.
Qed.

Lemma gob_Decode_spec (snap : gmap string GobEntry) c :
  (next_loc c ≤ next_loc (gob_Decode snap c))%nat ∧
  (∀ p, (p < next_loc c)%nat → deref (gob_Decode snap c) p = deref c p) ∧
  (∀ k, snap !! k = None → entries (gob_Decode snap c) !! k = entries c !! k) ∧
  (∀ k g, snap !! k = Some g →
     ∃ p, entries (gob_Decode snap c) !! k = Some p ∧
          (next_loc c ≤ p < next_loc (gob_Decode snap c))%nat ∧
          deref (gob_Decode snap c) p = decoded_entry g) ∧
  (∀ k1 k2 p, is_Some (snap !! k1) → is_Some (snap !! k2) →
     entries (gob_Decode snap c) !! k1 = Some p →
     entries (gob_Decode snap c) !! k2 = Some p → k1 = k2) ∧
  same_config c (gob_Decode snap c) ∧
  stats (gob_Decode snap c) = stats c ∧
  head (gob_Decode snap c) = head c ∧
  tail (gob_Decode snap c) = tail c ∧
  memoryUsage (gob_Decode snap c) = memoryUsage c.
Proof.
  unfold gob_Decode.
  pose proof (NoDup_fst_map_to_list snap) as Hnd.
  destruct (gob_decode_list_spec (map_to_list snap) c Hnd)
    as (H1 & H2 & H3 & H4 & H5 & H6 & H7 & H8 & H9).
  assert (Hat : ∀ k g, snap !! k = Some g → ∃ i, map_to_list snap !! i = Some (k, g)).
  { intros k g Hk. apply elem_of_map_to_list in Hk.
    by apply list_elem_of_lookup in Hk. }
  refine (conj _ (conj H2 (conj _ (conj _ (conj _ _))))); [lia| | | |done].
  - intros k Hk. apply H3. intros Hin.
    apply list_elem_of_fmap in Hin as ([k' g] & -> & Hin).
    apply elem_of_map_to_list in Hin. cbn in Hk. congruence.
  - intros k g Hk. destruct (Hat k g Hk) as [i Hi].
    destruct (H4 i k g Hi) as [E1 E2]. exists (next_loc c + i)%nat.
    apply lookup_lt_Some in Hi. repeat split; try done; lia.
  - intros k1 k2 p [g1 Hk1] [g2 Hk2] E1 E2.
    destruct (Hat k1 g1 Hk1) as [i Hi]. destruct (Hat k2 g2 Hk2) as [j Hj].
    destruct (H4 i k1 g1 Hi) as [E1' _]. destruct (H4 j k2 g2 Hj) as [E2' _].
    assert (i = j) by (rewrite E1 in E1'; rewrite E2 in E2'; simplify_eq; lia).
    subst j. rewrite Hi in Hj. by injection Hj.
Qed.

Lemma wrap_in_range z : Int.in_range z → Int.wrap z = z.
Proof.
  unfold Int.in_range, Int.wrap, Int.min_int, Int.max_int. intros Hr.
  rewrite Z.mod_small; lia.
Qed.


Lemma wrap_range z : Int.in_range (Int.wrap z).
Proof.
  unfold Int.in_range, Int.wrap, Int.min_int, Int.max_int.
  pose proof (Z.mod_pos_bound (z + 2 ^ 63) (2 ^ 64)). lia.
Qed.

Section PersistenceFacts.
Context `{SizeModel} `{SliceSorter}.

Lemma same_payload_SizeInBytes c c' p :
  same_payload c c' → SizeInBytes (deref c' p) = SizeInBytes (deref c p).
Proof. intros Hp. specialize (Hp p). unfold SizeInBytes. by injection Hp as -> -> _ _. Qed.

Lemma add_sizes_same_payload c c' m ls :
  same_payload c c' → add_sizes c' m ls = add_sizes c m ls.
Proof.
  intros Hp. revert m. induction ls as [|p ls IH]; intros m; [done|].
  cbn. rewrite (same_payload_SizeInBytes c c') by done. apply IH.
Qed.

Lemma relink_step_spec c pre x :
  pre ≠ [] → linked c pre → x ∉ pre → detached c x →
  linked (relink_step (last pre, c) x).2 (pre ++ [x]) ∧
  (relink_step (last pre, c) x).1 = Some x ∧
  same_payload c (relink_step (last pre, c) x).2 ∧
  (∀ q, q ∉ pre → q ≠ x →
     deref (relink_step (last pre, c) x).2 q = deref c q) ∧
  same_config c (relink_step (last pre, c) x).2 ∧
  stats (relink_step (last pre, c) x).2 = stats c ∧
  entries (relink_step (last pre, c) x).2 = entries c ∧
  next_loc (relink_step (last pre, c) x).2 = next_loc c ∧
  memoryUsage (relink_step (last pre, c) x).2 =
    (if memory_bounded c then Int.add (memoryUsage c) (SizeInBytes (deref c x))
     else memoryUsage c).
Proof.
  intros Hne Hl Hx [Hnx Hpx]. pose proof Hl as (Hnd & Hseg & Ht & Hh).
  destruct (last pre) as [h|] eqn:El; [|by apply last_None in El].
  assert (Hhin : h ∈ pre) by (apply last_Some in El as [l' ->]; set_solver).
  assert (Hhx : h ≠ x) by (intros ->; done).
  unfold relink_step. cbn [fst snd].
  set (c1 := set_head (Some x) _).
  assert (Hl1 : linked c1 (pre ++ [x])).
  { eapply (linked_snoc c); [done|done|..]; rewrite ?El; subst c1.
    - intros q Hq. assert (q ≠ x) by (intros ->; done). heap_simpl.
    - intros q Hq Hql. assert (q ≠ x) by (intros ->; done). heap_simpl.
    - intros q [= <-]. heap_simpl.
    - heap_simpl.
    - heap_simpl.
    - done.
    - cbn. rewrite Ht. by rewrite hd_error_app_ne. }
  assert (Hp1 : same_payload c c1) by (subst c1; payload_tac).
  assert (Hmb : memory_bounded c1 = memory_bounded c) by done.
  assert (Hsz : SizeInBytes (deref c1 x) = SizeInBytes (deref c x))
    by by apply same_payload_SizeInBytes.
  assert (Hfr : ∀ q, q ∉ pre → q ≠ x → deref c1 q = deref c q).
  { intros q Hq Hqx. subst c1. heap_simpl. }
  assert (Hcf : same_config c c1 ∧ stats c1 = stats c ∧ entries c1 = entries c ∧
                next_loc c1 = next_loc c ∧ memoryUsage c1 = memoryUsage c) by done.
  destruct Hcf as (Hcf & Hst & Hen & Hnl & Hmu).
  rewrite Hmb, Hsz. clearbody c1.
  destruct (memory_bounded c);
    refine (conj Hl1 (conj eq_refl (conj Hp1 (conj Hfr (conj Hcf
              (conj Hst (conj Hen (conj Hnl _))))))));
    cbn [memoryUsage set_memoryUsage]; by rewrite ?Hmu.
Qed.

Lemma memory_bounded_same_config c c' :
  same_config c c' → memory_bounded c' = memory_bounded c.
Proof. intros (_ & E & _). unfold memory_bounded. by rewrite E. Qed.

Lemma size_bounded_same_config c c' :
  same_config c c' → size_bounded c' = size_bounded c.
Proof. intros (E & _ & _). unfold size_bounded. by rewrite E. Qed.

Lemma same_config_refl c : same_config c c.
Proof. done. Qed.

Lemma same_config_trans c1 c2 c3 :
  same_config c1 c2 → same_config c2 c3 → same_config c1 c3.
Proof. unfold same_config. intuition congruence. Qed.

Lemma relink_from rest : ∀ pre c,
  pre ≠ [] → linked c pre → NoDup (pre ++ rest) →
  (∀ p, p ∈ rest → detached c p) →
  linked (foldl relink_step (last pre, c) rest).2 (pre ++ rest) ∧
  same_payload c (foldl relink_step (last pre, c) rest).2 ∧
  same_config c (foldl relink_step (last pre, c) rest).2 ∧
  stats (foldl relink_step (last pre, c) rest).2 = stats c ∧
  entries (foldl relink_step (last pre, c) rest).2 = entries c ∧
  next_loc (foldl relink_step (last pre, c) rest).2 = next_loc c ∧
  memoryUsage (foldl relink_step (last pre, c) rest).2 =
    (if memory_bounded c then add_sizes c (memoryUsage c) rest else memoryUsage c).
Proof.
  induction rest as [|x rest IH]; intros pre c Hne Hl Hnd Hdet.
  - cbn [foldl snd]. rewrite app_nil_r.
    refine (conj Hl (conj (same_payload_refl c) (conj (same_config_refl c) _))).
    repeat split. by destruct (memory_bounded c).
  - cbn [foldl].
    assert (Hx : x ∉ pre).
    { apply NoDup_app in Hnd as (_ & Hd & _). intros Hin. apply (Hd x Hin). left. }
    destruct (relink_step_spec c pre x Hne Hl Hx (Hdet x ltac:(left)))
      as (Hl1 & E1 & Hp1 & Hfr & Hcf & Hst & Hen & Hnl & Hmu).
    set (r := relink_step (last pre, c) x) in *.
    assert (Er : r = (last (pre ++ [x]), r.2)).
    { rewrite last_snoc. destruct r. cbn in E1. by subst. }
    rewrite Er. clearbody r.
    assert (Hnd' : NoDup ((pre ++ [x]) ++ rest)) by by rewrite <- app_assoc.
    assert (Hdet' : ∀ p, p ∈ rest → detached r.2 p).
    { intros p Hp.
      assert (p ∉ pre ∧ p ≠ x) as [Hp1' Hp2'].
      { apply NoDup_app in Hnd' as (_ & Hd & _). split.
        - intros Hin. apply (Hd p); [set_solver|done].
        - intros ->. apply (Hd x); [set_solver|done]. }
      unfold detached. rewrite Hfr by done. apply Hdet. by right. }
    assert (Hne' : pre ++ [x] ≠ []) by (by destruct pre).
    destruct (IH (pre ++ [x]) r.2 Hne' Hl1 Hnd' Hdet')
      as (Hl2 & Hp2 & Hcf2 & Hst2 & Hen2 & Hnl2 & Hmu2).
    rewrite <- app_assoc in Hl2. cbn [app] in Hl2.
    refine (conj Hl2 (conj _ (conj _ (conj _ (conj _ (conj _ _)))))).
    + by eapply same_payload_trans.
    + by eapply same_config_trans.
    + congruence.
    + congruence.
    + congruence.
    + rewrite Hmu2, (memory_bounded_same_config c r.2) by done.
      destruct (memory_bounded c); [|done].
      rewrite Hmu. by rewrite (add_sizes_same_payload c r.2).
Qed.

Lemma relink_spec ls c :
  NoDup ls → (∀ p, p ∈ ls → detached c p) →
  (ls = [] → head c = None ∧ tail c = None) →
  linked (relink ls c) ls ∧
  same_payload c (relink ls c) ∧
  same_config c (relink ls c) ∧
  stats (relink ls c) = stats c ∧
  entries (relink ls c) = entries c ∧
  next_loc (relink ls c) = next_loc c ∧
  memoryUsage (relink ls c) =
    (if memory_bounded c then add_sizes c (memoryUsage c) ls else memoryUsage c).
Proof.
  intros Hnd Hdet Hnil. unfold relink. destruct ls as [|x rest].
  - cbn. destruct (Hnil eq_refl) as [Hh Ht].
    refine (conj _ (conj (same_payload_refl c) (conj (same_config_refl c) _))).
    + repeat split; try done; constructor.
    + repeat split. by destruct (memory_bounded c).
  - cbn [foldl].
    set (r := relink_step (None, c) x).
    destruct (Hdet x ltac:(left)) as [Hnx Hpx].
    assert (Hr : r = (last [x], r.2)) by done.
    assert (Hl1 : linked r.2 [x]).
    { subst r. unfold relink_step. cbn [fst snd].
      assert (E : ∀ c', store c' = store c → head c' = Some x → tail c' = Some x →
                        linked c' [x]).
      { intros c' E1 E2 E3. refine (conj _ (conj _ (conj E3 E2))).
        - apply NoDup_singleton.
        - cbn. rewrite E1. done. }
      destruct (memory_bounded _); by apply E. }
    assert (Hfacts : same_payload c r.2 ∧ same_config c r.2 ∧ stats r.2 = stats c ∧
              entries r.2 = entries c ∧ next_loc r.2 = next_loc c ∧
              memoryUsage r.2 = (if memory_bounded c
                                 then Int.add (memoryUsage c) (SizeInBytes (deref c x))
                                 else memoryUsage c) ∧
              ∀ q, deref r.2 q = deref c q).
    { subst r. unfold relink_step. cbn [fst snd].
      change (memory_bounded (set_head (Some x) (set_tail (Some x) c)))
        with (memory_bounded c).
      destruct (memory_bounded c); repeat split; done. }
    destruct Hfacts as (Hp1 & Hcf & Hst & Hen & Hnl & Hmu & Hfr).
    rewrite Hr. clearbody r.
    assert (Hdet' : ∀ p, p ∈ rest → detached r.2 p).
    { intros p Hp. unfold detached. rewrite Hfr. apply Hdet. by right. }
    destruct (relink_from rest [x] r.2 ltac:(done) Hl1 Hnd Hdet')
      as (Hl2 & Hp2 & Hcf2 & Hst2 & Hen2 & Hnl2 & Hmu2).
    refine (conj Hl2 (conj _ (conj _ (conj _ (conj _ (conj _ _)))))).
    + by eapply same_payload_trans.
    + by eapply same_config_trans.
    + congruence.
    + congruence.
    + congruence.
    + rewrite Hmu2, (memory_bounded_same_config c r.2) by done.
      destruct (memory_bounded c); [|done].
      rewrite Hmu. by rewrite (add_sizes_same_payload c r.2).
Qed.

End PersistenceFacts.

Section LoopFacts.
Context `{SizeModel}.

Lemma incrN_exact k n :
  Int.in_range n → n + Z.of_nat k ≤ Int.max_int → incrN k n = n + Z.of_nat k.
Proof.
  unfold incrN. induction k as [|k IH]; intros Hr Hle; simpl; [lia|].
  rewrite IH by (try done; lia). unfold Int.add. rewrite wrap_in_range; [lia|].
  unfold Int.in_range in *. unfold Int.min_int, Int.max_int in *. lia.
Qed.

Lemma evictN_repr k : ∀ c ls,
  repr c ls → (k ≤ length ls)%nat →
  repr (evictN k c) (drop k ls) ∧
  same_payload c (evictN k c) ∧
  same_config c (evictN k c) ∧
  next_loc (evictN k c) = next_loc c ∧
  EvictedKeys (stats (evictN k c)) = EvictedKeys (stats c) + Z.of_nat k ∧
  Hits (stats (evictN k c)) = Hits (stats c) ∧
  Misses (stats (evictN k c)) = Misses (stats c).
Proof.
  induction k as [|k IH]; intros c ls Hr Hk.
  - unfold evictN. simpl Nat.iter. rewrite drop_0. refine (conj Hr (conj (same_payload_refl _) (conj (same_config_refl _) _))). repeat split; lia.
  - destruct (IH c ls Hr ltac:(lia)) as (Hr' & Hp & Hc & Hn & He & Hh & Hm).
    destruct (lookup_lt_is_Some_2 ls k ltac:(lia)) as [x Hx].
    rewrite (drop_S _ _ _ Hx) in Hr'.
    unfold evictN in *. simpl Nat.iter.
    destruct (evict_repr _ _ _ Hr')
      as (Hr2 & _ & _ & Hp2 & E1 & E2 & E3 & E4 & E5 & _).
    refine (conj Hr2 (conj _ (conj _ _))).
    + by eapply same_payload_trans.
    + eapply same_config_trans; [exact Hc|]. by repeat split.
    + rewrite E4, E5. cbn. repeat split; try done. lia.
Qed.

Lemma evict_while_spec (cond : Cache → bool) :
  (∀ c, cond c = true → 0 < len c) →
  ∀ ls c fuel n, repr c ls → (length ls ≤ fuel)%nat →
  ∃ k, (k ≤ length ls)%nat ∧
       evict_while cond fuel n c = Some (incrN k n, evictN k c) ∧
       cond (evictN k c) = false ∧
       (∀ j, (j < k)%nat → cond (evictN j c) = true).
Proof.
  intros Hcond. induction ls as [|x ls IH]; intros c fuel n Hr Hfuel.
  - exists 0%nat. assert (Hc : cond c = false).
    { destruct (cond c) eqn:E; [|done]. apply Hcond in E.
      rewrite (repr_len _ _ Hr) in E. cbn in E. lia. }
    repeat split; [done| |done|lia].
    destruct fuel; cbn; by rewrite Hc.
  - destruct (cond c) eqn:Hc.
    + destruct fuel as [|fuel]; [cbn in Hfuel; lia|].
      destruct (evict_repr _ _ _ Hr) as (Hr' & _).
      destruct (IH (evict c) fuel (Int.add n 1) Hr' ltac:(cbn in Hfuel; lia))
        as (k & Hk & He & Hf & Hj).
      exists (S k). unfold evictN, incrN in *.
      rewrite !Nat.iter_succ_r. repeat split.
      * cbn. lia.
      * cbn [evict_while]. by rewrite Hc.
      * done.
      * intros [|j] Hlt; [done|]. rewrite Nat.iter_succ_r. apply Hj. lia.
    + exists 0%nat. repeat split; [cbn; lia| |done|lia].
      destruct fuel; cbn; by rewrite Hc.
Qed.

Lemma over_memory_len c : over_memory c = true → 0 < len c.
Proof. unfold over_memory. intros [_ E]%andb_true_iff. lia. Qed.

Lemma over_size_len c : 0 ≤ maxSize c → over_size c = true → 0 < len c.
Proof. unfold over_size. lia. Qed.

Lemma evictN_len k c ls :
  repr c ls → (k ≤ length ls)%nat → len (evictN k c) = len c - Z.of_nat k.
Proof.
  intros Hr Hk. destruct (evictN_repr k c ls Hr Hk) as (Hr' & _).
  rewrite (repr_len _ _ Hr'), (repr_len _ _ Hr), length_drop. lia.
Qed.

(** The size loop of [ReadFromFile] runs exactly [len - maxSize] times. *)
Lemma evict_while_over_size c ls fuel n :
  repr c ls → 0 ≤ maxSize c → (length ls ≤ fuel)%nat →
  evict_while over_size fuel n c =
    Some (incrN (Z.to_nat (len c - maxSize c)) n,
          evictN (Z.to_nat (len c - maxSize c)) c) ∧
  (Z.to_nat (len c - maxSize c) ≤ length ls)%nat.
Proof.
  intros Hr Hm Hfuel.
  assert (Hcond : ∀ c', 0 ≤ maxSize c' → over_size c' = true → 0 < len c')
    by apply over_size_len.
  pose proof (repr_len _ _ Hr) as Hlen.
  assert (Hgen : ∀ ls c fuel n, repr c ls → 0 ≤ maxSize c → (length ls ≤ fuel)%nat →
    evict_while over_size fuel n c =
      Some (incrN (Z.to_nat (len c - maxSize c)) n,
            evictN (Z.to_nat (len c - maxSize c)) c)).
  { clear. intros ls. induction ls as [|x ls IH]; intros c fuel n Hr Hm Hfuel.
    - pose proof (repr_len _ _ Hr) as Hlen. cbn in Hlen.
      replace (Z.to_nat (len c - maxSize c)) with 0%nat by lia.
      assert (Hc : over_size c = false) by (unfold over_size; lia).
      destruct fuel; cbn; by rewrite Hc.
    - pose proof (repr_len _ _ Hr) as Hlen.
      destruct (over_size c) eqn:Hc.
      + destruct fuel as [|fuel]; [cbn in Hfuel; lia|].
        destruct (evict_repr _ _ _ Hr) as (Hr' & _ & _ & _ & E1 & _).
        pose proof (repr_len _ _ Hr') as Hlen'.
        cbn [evict_while]. rewrite Hc.
        rewrite (IH (evict c) fuel) by (try done; cbn in Hfuel; lia).
        unfold over_size in Hc. cbn [length] in Hlen.
        replace (Z.to_nat (len c - maxSize c))
          with (S (Z.to_nat (len (evict c) - maxSize (evict c)))) by lia.
        unfold incrN, evictN. by rewrite !Nat.iter_succ_r.
      + unfold over_size in Hc.
        replace (Z.to_nat (len c - maxSize c)) with 0%nat by lia.
        destruct fuel; cbn; unfold over_size; by rewrite Hc. }
  split; [by eapply Hgen|]. lia.
Qed.

End LoopFacts.

Lemma gob_encode_decoded g : gob_encode_entry (decoded_entry g) = g.
Proof. by destruct g. Qed.

Lemma gob_Encode_valid c ls : indexed c ls → snapshot_valid (gob_Encode c).
Proof.
  intros Hi k g. unfold gob_Encode. rewrite lookup_fmap.
  destruct (entries c !! k) as [p|] eqn:E; [|done]. cbn. intros [= <-].
  cbn. by apply Hi in E as [_ ?].
Qed.

Lemma StronglySorted_impl {A} (R R' : A → A → Prop) l :
  (∀ a b, R a b → R' a b) → StronglySorted R l → StronglySorted R' l.
Proof.
  intros HR. induction 1 as [|x l Hs IH Hx]; constructor; [done|].
  eapply Forall_impl; [exact Hx|]. intros; by apply HR.
Qed.

Lemma same_payload_timestamp c c' p :
  same_payload c c' → timestamp_of c' p = timestamp_of c p.
Proof. intros Hp. specialize (Hp p). unfold timestamp_of. by injection Hp. Qed.

Section LoadFacts.
Context `{SizeModel} `{SliceSorter}.

Lemma sorted_entries_sorted c :
  StronglySorted (λ a b, timestamp_of c a ≤ timestamp_of c b) (sorted_entries c).
Proof. apply (sort_Slice_sorted (timestamp_of c)). Qed.

Lemma sorted_entries_perm c : sorted_entries c ≡ₚ (map_to_list (entries c)).*2.
Proof. apply sort_Slice_perm. Qed.

(** Loading into a cache all of whose keys occur in the snapshot (an empty
    cache in particular) yields a well-formed cache. *)
Lemma load_repr (snap : gmap string GobEntry) c :
  (∀ k, is_Some (entries c !! k) → is_Some (snap !! k)) →
  (entries c = ∅ → head c = None ∧ tail c = None) →
  snapshot_valid snap →
  repr (rebuild (gob_Decode snap c)) (sorted_entries (gob_Decode snap c)) ∧
  StronglySorted (λ a b, timestamp_of (rebuild (gob_Decode snap c)) a ≤
                         timestamp_of (rebuild (gob_Decode snap c)) b)
    (sorted_entries (gob_Decode snap c)) ∧
  (λ p, gob_encode_entry (deref (rebuild (gob_Decode snap c)) p)) <$>
    entries (rebuild (gob_Decode snap c)) = snap ∧
  same_config c (rebuild (gob_Decode snap c)) ∧
  stats (rebuild (gob_Decode snap c)) = stats c ∧
  memoryUsage (rebuild (gob_Decode snap c)) =
    (if memory_bounded c
     then add_sizes (rebuild (gob_Decode snap c)) (memoryUsage c)
            (sorted_entries (gob_Decode snap c))
     else memoryUsage c).
Proof.
  intros Hcov Hempty Hvalid.
  destruct (gob_Decode_spec snap c)
    as (Hnl & Hold & Hnone & Hsome & Hinj & Hcf & Hst & Hh & Ht & Hmu).
  set (c1 := gob_Decode snap c) in *. clearbody c1.
  assert (Hdom : ∀ k p, entries c1 !! k = Some p →
            ∃ g, snap !! k = Some g ∧ deref c1 p = decoded_entry g ∧
                 (p < next_loc c1)%nat).
  { intros k p Hk. destruct (snap !! k) as [g|] eqn:Eg.
    - exists g. destruct (Hsome k g Eg) as (p' & E1 & E2 & E3).
      assert (p' = p) by congruence. subst. repeat split; [done|lia].
    - rewrite Hnone in Hk by done.
      destruct (Hcov k) as [g' Hg']; [by eexists|]. congruence. }
  set (vs := (map_to_list (entries c1)).*2).
  assert (Hvs : ∀ p, p ∈ vs ↔ ∃ k, entries c1 !! k = Some p).
  { intros p. subst vs. rewrite list_elem_of_fmap. split.
    - intros ([k p'] & -> & Hin). exists k. by apply elem_of_map_to_list.
    - intros [k Hk]. exists (k, p). split; [done|]. by apply elem_of_map_to_list. }
  assert (Hndv : NoDup vs).
  { subst vs. apply NoDup_fmap_2_strong; [|apply NoDup_map_to_list].
    intros [k1 p1] [k2 p2] H1 H2 Heq. cbn in Heq. subst p2.
    apply elem_of_map_to_list in H1, H2.
    destruct (Hdom _ _ H1) as (g1 & Hg1 & _). destruct (Hdom _ _ H2) as (g2 & Hg2 & _).
    f_equal. eapply Hinj; [by eexists|by eexists|exact H1|exact H2]. }
  pose proof (sorted_entries_perm c1) as Hperm. fold vs in Hperm.
  pose proof (sorted_entries_sorted c1) as Hsorted.
  set (ls := sorted_entries c1) in *.
  assert (Hnd : NoDup ls) by by rewrite Hperm.
  assert (Hdet : ∀ p, p ∈ ls → detached c1 p).
  { intros p Hp. rewrite Hperm in Hp. apply Hvs in Hp as [k Hk].
    destruct (Hdom _ _ Hk) as (g & _ & E & _). unfold detached. by rewrite E. }
  assert (Hnil : ls = [] → head c1 = None ∧ tail c1 = None).
  { intros E. rewrite Hh, Ht. apply Hempty. apply map_eq. intros k.
    rewrite lookup_empty. destruct (entries c !! k) as [p|] eqn:Ek; [|done].
    destruct (Hcov k) as [g Hg]; [by eexists|].
    destruct (Hsome k g Hg) as (p' & E1 & _).
    assert (p' ∈ ls) by (rewrite Hperm; apply Hvs; by exists k).
    rewrite E in *. by apply elem_of_nil in H1. }
  unfold rebuild. fold ls.
  destruct (relink_spec ls c1 Hnd Hdet Hnil)
    as (Hl2 & Hp2 & Hcf2 & Hst2 & Hen2 & Hnl2 & Hmu2).
  set (c2 := relink ls c1) in *. clearbody c2.
  refine (conj (conj Hl2 (conj _ _)) (conj _ (conj _ (conj _ (conj _ _))))).
  - intros k p. rewrite Hen2, (same_payload_Key c1 c2) by done. split.
    + intros Hk. destruct (Hdom _ _ Hk) as (g & Hg & E & _). split.
      * rewrite Hperm. apply Hvs. by exists k.
      * rewrite E. cbn. by apply Hvalid.
    + intros [Hp <-]. rewrite Hperm in Hp. apply Hvs in Hp as [k Hk].
      destruct (Hdom _ _ Hk) as (g & Hg & E & _).
      rewrite E. cbn. by rewrite (Hvalid _ _ Hg).
  - apply Forall_forall. intros p Hp. rewrite Hperm in Hp. apply Hvs in Hp as [k Hk].
    destruct (Hdom _ _ Hk) as (g & _ & _ & Hlt). by rewrite Hnl2.
  - eapply StronglySorted_impl; [|exact Hsorted]. intros a b.
    by rewrite !(same_payload_timestamp c1 c2).
  - apply map_eq. intros k. rewrite lookup_fmap, Hen2.
    destruct (snap !! k) as [g|] eqn:Eg.
    + destruct (Hsome k g Eg) as (p & E1 & _ & E3). rewrite E1. cbn.
      by rewrite Hp2, E3, gob_encode_decoded.
    + rewrite Hnone by done. destruct (entries c !! k) eqn:Ek; [|done].
      destruct (Hcov k) as [g' Hg']; [by eexists|]. congruence.
  - by eapply same_config_trans.
  - congruence.
  - rewrite Hmu2, (memory_bounded_same_config c c1), Hmu by done.
    destruct (memory_bounded c); [|done].
    by rewrite (add_sizes_same_payload c1 c2).
Qed.

End LoadFacts.

(** ** Well-formedness is preserved by the operations *)

Lemma repr_ext c c' ls :
  store c' = store c → head c' = head c → tail c' = tail c →
  entries c' = entries c → next_loc c' = next_loc c →
  repr c ls → repr c' ls.
Proof.
  intros E1 E2 E3 E4 E5 (Hl & Hi & Ha). refine (conj _ (conj _ _)).
  - by apply (linked_ext c).
  - by apply (indexed_ext c).
  - by rewrite E5.
Qed.

(** Writing a field other than the key and the links of an object. *)
Lemma repr_update_data c ls p f :
  (∀ e, Key (f e) = Key e ∧ next (f e) = next e ∧ previous (f e) = previous e) →
  repr c ls → repr (update p f c) ls.
Proof.
  intros Hf ((Hnd & Hseg & Ht & Hh) & Hi & Ha).
  refine (conj (conj Hnd (conj _ (conj Ht Hh))) (conj _ Ha)).
  - eapply dlseg_frame; [|exact Hseg]. intros x _.
    change (next (deref (update p f c) x) = next (deref c x) ∧
            previous (deref (update p f c) x) = previous (deref c x)).
    rewrite deref_update. case_decide; [subst|done]. by destruct (Hf (deref c x)) as (_ & -> & ->).
  - intros k q. cbn [entries update set_store]. rewrite deref_update.
    case_decide; [subst|apply Hi]. destruct (Hf (deref c q)) as (-> & _). apply Hi.
Qed.

Lemma repr_split c ls k x :
  repr c ls → entries c !! k = Some x →
  ∃ l1 l2, ls = l1 ++ x :: l2 ∧ Key (deref c x) = k.
Proof.
  intros (_ & Hi & _) Hk. apply Hi in Hk as [Hin Hkey].
  apply list_elem_of_split in Hin as (l1 & l2 & ->). by exists l1, l2.
Qed.

Section OperationFacts.
Context `{SizeModel}.

Lemma cache_delete_repr c l1 x l2 k :
  repr c (l1 ++ x :: l2) → entries c !! k = Some x →
  repr (cache_delete k c).1 (l1 ++ l2) ∧
  (cache_delete k c).2 = true ∧
  entries (cache_delete k c).1 = delete k (entries c) ∧
  same_payload c (cache_delete k c).1 ∧
  same_config c (cache_delete k c).1 ∧
  stats (cache_delete k c).1 = stats c ∧
  memoryUsage (cache_delete k c).1 =
    (if memory_bounded c then Int.sub (memoryUsage c) (SizeInBytes (deref c x))
     else memoryUsage c).
Proof.
  intros Hr Hk. pose proof Hr as (Hl & Hi & Ha).
  assert (Hkey : Key (deref c x) = k) by (by apply Hi in Hk as [_ ?]).
  unfold cache_delete. rewrite Hk. cbn [fst snd].
  set (c0 := if memory_bounded c then _ else c).
  assert (Hl0 : linked c0 (l1 ++ x :: l2)).
  { eapply linked_ext; [| | |exact Hl]; subst c0; by destruct (memory_bounded c). }
  assert (E0 : store c0 = store c ∧ entries c0 = entries c ∧ next_loc c0 = next_loc c ∧
               same_config c c0 ∧ stats c0 = stats c ∧
               memoryUsage c0 = (if memory_bounded c
                                 then Int.sub (memoryUsage c) (SizeInBytes (deref c x))
                                 else memoryUsage c))
    by (subst c0; by destruct (memory_bounded c)).
  destruct E0 as (Es & Ee & En & Ec & Est & Em). clearbody c0.
  destruct (remove_linked c0 l1 x l2 Hl0) as (Hl' & _ & _ & Hp & Hf).
  set (c1 := removeExistingEntryReferences x c0) in *. clearbody c1.
  destruct Hf as (F1 & F2 & F3 & F4 & F5 & F6 & F7).
  assert (Hp' : same_payload c c1).
  { intros q. rewrite Hp. unfold deref. by rewrite Es. }
  refine (conj (conj _ (conj _ _)) (conj eq_refl (conj _ (conj _ (conj _ (conj _ _)))))).
  - by apply (linked_ext c1).
  - destruct Hl as (Hnd & _).
    apply (indexed_delete c _ l1 x l2 Hnd Hi); [exact Hp'|].
    cbn. by rewrite F5, Ee, Hkey.
  - cbn. rewrite F7, En. apply Forall_app in Ha as [Ha1 Ha2].
    apply Forall_cons in Ha2 as [_ Ha2]. by apply Forall_app.
  - cbn. by rewrite F5, Ee.
  - exact Hp'.
  - destruct Ec as (E1 & E2 & E3). unfold same_config. cbn. by rewrite F1, F2, F3.
  - cbn. congruence.
  - cbn. congruence.
Qed.

Lemma evict_while_mono cond : ∀ fuel fuel' n c r,
  evict_while cond fuel n c = Some r → (fuel ≤ fuel')%nat →
  evict_while cond fuel' n c = Some r.
Proof.
  induction fuel as [|fuel IH]; intros fuel' n c r Hr Hle.
  - cbn in Hr. destruct (cond c) eqn:E; [done|].
    destruct fuel'; cbn; by rewrite E.
  - cbn in Hr. destruct (cond c) eqn:E.
    + destruct fuel' as [|fuel']; [lia|]. cbn. rewrite E. apply IH; [done|lia].
    + destruct fuel'; cbn; by rewrite E.
Qed.

End OperationFacts.

Section WritePath.
Context `{SizeModel}.




Lemma moveExistingEntryToHead_repr c l1 x l2 :
  repr c (l1 ++ x :: l2) →
  repr (moveExistingEntryToHead x c) (l1 ++ l2 ++ [x]) ∧
  same_payload c (moveExistingEntryToHead x c) ∧
  same_frame c (moveExistingEntryToHead x c).
Proof.
  intros (Hl & Hi & Ha).
  destruct (moveExistingEntryToHead_linked c l1 x l2 Hl) as (Hl' & Hp & Hf).
  refine (conj (conj Hl' (conj _ _)) (conj Hp Hf)).
  - destruct Hf as (_ & _ & _ & _ & He & _).
    intros k p. rewrite He, (same_payload_Key c _ p Hp).
    rewrite (Hi k p). set_solver.
  - destruct Hf as (_ & _ & _ & _ & _ & _ & ->).
    rewrite !Forall_app, Forall_cons in Ha. rewrite !Forall_app, Forall_singleton.
    tauto.
Qed.

Lemma update_entry_repr c l1 x l2 value :
  repr c (l1 ++ x :: l2) →
  repr (update_entry x value c) (l1 ++ l2 ++ [x]) ∧
  same_config c (update_entry x value c) ∧
  stats (update_entry x value c) = stats c ∧
  entries (update_entry x value c) = entries c.
Proof.
  intros Hr. unfold update_entry.
  set (c0 := if memory_bounded c then _ else c).
  assert (H0 : repr c0 (l1 ++ x :: l2) ∧ same_config c c0 ∧ stats c0 = stats c ∧
               entries c0 = entries c).
  { subst c0. destruct (memory_bounded c); [|done].
    split; [|done]. by apply (repr_ext c). }
  destruct H0 as (Hr0 & Hc0 & Hs0 & He0). clearbody c0.
  set (c1 := update x (set_Value value) c0).
  assert (Hr1 : repr c1 (l1 ++ x :: l2)) by (by apply repr_update_data).
  assert (H1 : same_config c c1 ∧ stats c1 = stats c ∧ entries c1 = entries c) by done.
  destruct H1 as (Hc1 & Hs1 & He1). clearbody c1.
  set (c2 := if memory_bounded c1 then _ else c1).
  assert (H2 : repr c2 (l1 ++ x :: l2) ∧ same_config c c2 ∧ stats c2 = stats c ∧
               entries c2 = entries c).
  { subst c2. destruct (memory_bounded c1); [|done].
    split; [|done]. by apply (repr_ext c1). }
  destruct H2 as (Hr2 & Hc2 & Hs2 & He2). clearbody c2.
  destruct (moveExistingEntryToHead_repr c2 l1 x l2 Hr2)
    as (Hr3 & _ & F1 & F2 & F3 & F4 & F5 & _).
  refine (conj Hr3 (conj _ (conj _ _))); [|congruence|congruence].
  destruct Hc2 as (E1 & E2 & E3). unfold same_config. by rewrite F1, F2, F3.
Qed.

Lemma evict_while_over_memory c ls n :
  repr c ls →
  ∃ k, (k ≤ length ls)%nat ∧
       (∀ fuel, (length ls ≤ fuel)%nat →
          evict_while over_memory fuel n c = Some (incrN k n, evictN k c)) ∧
       over_memory (evictN k c) = false.
Proof.
  intros Hr.
  destruct (evict_while_spec over_memory over_memory_len ls c (length ls) n Hr
              ltac:(lia)) as (k & Hk & He & Hf & _).
  exists k. repeat split; [done| |done].
  intros fuel Hfuel. by eapply evict_while_mono.
Qed.




End WritePath.

(** ** The size bound is maintained *)



Section Invariant.
Context `{SizeModel}.









End Invariant.

Section LoadInvariant.
Context `{SizeModel} `{SliceSorter}.

Lemma evictN_add k1 k2 c : evictN k2 (evictN k1 c) = evictN (k1 + k2) c.
Proof. unfold evictN. rewrite Nat.add_comm. by rewrite Nat.iter_add. Qed.




End LoadInvariant.


(** ** The decision procedure is sound *)

Lemma dlseg_check_sound h p ls n : dlseg_check h p ls n = true → dlseg h p ls n.
Proof.
  revert p. induction ls as [|x ls IH]; intros p; cbn; [done|].
  rewrite !andb_true_iff, !bool_decide_eq_true. intros [[? ?] ?]. auto.
Qed.

Lemma repr_check_sound c ls : repr_check c ls = true → repr c ls.
Proof.
  unfold repr_check. rewrite !andb_true_iff, !bool_decide_eq_true.
  intros [[[[[[Hnd Hseg] Ht] Hh] Hm] Hl] Ha].
  rewrite forallb_forall in Hm, Hl, Ha.
  refine (conj (conj Hnd (conj (dlseg_check_sound _ _ _ _ Hseg) (conj Ht Hh)))
               (conj _ _)).
  - intros k p. split.
    + intros Hk. apply elem_of_map_to_list, list_elem_of_In in Hk.
      specialize (Hm _ Hk). cbn in Hm.
      by rewrite andb_true_iff, !bool_decide_eq_true in Hm.
    + intros [Hin <-]. apply list_elem_of_In in Hin. specialize (Hl _ Hin).
      by apply bool_decide_eq_true in Hl.
  - apply Forall_forall. intros p Hp. apply list_elem_of_In in Hp.
    specialize (Ha _ Hp). by apply bool_decide_eq_true in Ha.
Qed.

(** ** Memory accounting *)




Lemma sum_list_Z_perm l1 l2 : l1 ≡ₚ l2 → sum_list_Z l1 = sum_list_Z l2.
Proof. unfold sum_list_Z. induction 1; cbn; lia. Qed.

Section Accounting.

Context `{SizeModel}.





(** Sizes depend on the key and the value only. *)
Lemma sum_sizes_agree c c' ls :
  (∀ p, p ∈ ls → Key (deref c' p) = Key (deref c p) ∧
                 Value (deref c' p) = Value (deref c p)) →
  sum_sizes c' ls = sum_sizes c ls.
Proof.
  intros Hag. unfold sum_sizes. f_equal. apply list_fmap_ext.
  intros i p Hp. apply list_elem_of_lookup_2 in Hp. destruct (Hag p Hp) as [E1 E2].
  unfold SizeInBytes. by rewrite E1, E2.
Qed.







End Accounting.

Section AccountingOps.

Context `{SizeModel}.



Lemma accounted_update_data c ls p f :
  (∀ e, Key (f e) = Key e ∧ Value (f e) = Value e) →
  accounted c ls → accounted (update p f c) ls.
Proof.
  intros Hf Ha. unfold accounted. intros Hb.
  change (memoryUsage (update p f c)) with (memoryUsage c).
  rewrite (Ha Hb). f_equal. symmetry. apply sum_sizes_agree. intros q _.
  rewrite deref_update. case_decide; [subst|done]. apply Hf.
Qed.



(** What the tail of [SetWithTTL] comes to: the expiration is written, then
    some entries are evicted from the tail, until the memory bound holds or
    the cache is empty; none is evicted when there is no memory bound and
    the count is within the size bound. *)
Lemma SetWithTTL_finish_evictN c ls x ttl now :
  repr c ls → x ∈ ls →
  ∃ k c0, (k ≤ length ls)%nat ∧ repr c0 ls ∧ same_config c c0 ∧
          (accounted c ls → accounted c0 ls) ∧
          (memory_bounded c = true →
           memoryUsage (evictN k c0) ≤ maxMemoryUsage c ∨ len (evictN k c0) = 0) ∧
          (∀ fuel, (length ls ≤ fuel)%nat →
                   SetWithTTL_finish fuel x ttl now c = Some (evictN k c0)) ∧
          c0 = update x (set_Expiration
                           (if bool_decide (ttl ≠ NoExpiration)
                            then expiration_after now ttl else NoExpiration)) c ∧
          (memory_bounded c = false →
           ∀ fuel, SetWithTTL_finish fuel x ttl now c = Some (evictN k c0)) ∧
          (memory_bounded c = false →
           (size_bounded c = true → len c ≤ maxSize c) → k = 0%nat).
Proof.
  intros Hr Hx. unfold SetWithTTL_finish.
  set (c0 := if bool_decide (ttl ≠ NoExpiration) then _ else _).
  assert (H0 : repr c0 ls ∧ same_config c c0 ∧ (accounted c ls → accounted c0 ls) ∧
               c0 = update x (set_Expiration
                                (if bool_decide (ttl ≠ NoExpiration)
                                 then expiration_after now ttl else NoExpiration)) c).
  { subst c0. destruct (bool_decide (ttl ≠ NoExpiration));
      (refine (conj _ (conj _ (conj _ eq_refl)));
       [by apply repr_update_data|done|by apply accounted_update_data]). }
  destruct H0 as (Hr0 & Hc0 & Ha0 & E0). clearbody c0.
  pose proof (memory_bounded_same_config _ _ Hc0) as Hmb.
  pose proof (size_bounded_same_config _ _ Hc0) as Hsb.
  assert (Hlen0 : len c0 = len c).
  { by rewrite (repr_len _ _ Hr0), (repr_len _ _ Hr). }
  assert (Hmax0 : maxSize c0 = maxSize c) by apply Hc0.
  destruct (negb (size_bounded c0) && negb (memory_bounded c0)) eqn:Hnb.
  { exists 0%nat, c0.
    refine (conj _ (conj Hr0 (conj Hc0 (conj Ha0 (conj _ (conj _ (conj E0 (conj _ _))))))));
      [lia| |done|done|done].
    intros Hb. rewrite Hmb, Hb in Hnb. by rewrite andb_false_r in Hnb. }
  set (c1 := if size_bounded c0 && over_size c0 then evict c0 else c0).
  assert (H1 : ∃ k1, (k1 ≤ 1)%nat ∧ c1 = evictN k1 c0 ∧
                     ((size_bounded c = true → len c ≤ maxSize c) → k1 = 0%nat)).
  { subst c1. destruct (size_bounded c0 && over_size c0) eqn:Hov;
      [exists 1%nat|exists 0%nat]; (refine (conj _ (conj eq_refl _)); [lia|]); [|done].
    intros Hok. apply andb_true_iff in Hov as [Hov1 Hov2].
    rewrite Hsb in Hov1. specialize (Hok Hov1). unfold over_size in Hov2. lia. }
  destruct H1 as (k1 & Hk1 & -> & Hk10).
  assert (Hlen : (1 ≤ length ls)%nat).
  { destruct ls; [by apply elem_of_nil in Hx|cbn; lia]. }
  destruct (evictN_repr k1 c0 ls Hr0 ltac:(lia)) as (Hr1 & _ & Hc1 & _).
  destruct (memory_bounded (evictN k1 c0) &&
            (maxMemoryUsage (evictN k1 c0) <? memoryUsage (evictN k1 c0))) eqn:Hmem.
  - assert (Hbd : memory_bounded c = true).
    { apply andb_true_iff in Hmem as [Hmem _].
      by rewrite (memory_bounded_same_config c0), Hmb in Hmem. }
    destruct (evict_while_over_memory _ _ 0 Hr1) as (k2 & Hk2 & He & Hex).
    rewrite length_drop in Hk2, He. rewrite evictN_add in Hex.
    destruct (evictN_repr (k1 + k2) c0 ls Hr0 ltac:(lia)) as (_ & _ & Hc2 & _).
    exists (k1 + k2)%nat, c0.
    refine (conj _ (conj Hr0 (conj Hc0 (conj Ha0 (conj _ (conj _ (conj E0 (conj _ _))))))));
      [lia| | |congruence|congruence].
    + intros _. unfold over_memory in Hex.
      destruct Hc2 as (_ & E2 & _). destruct Hc0 as (_ & E0' & _). rewrite E2, E0' in Hex.
      apply andb_false_iff in Hex as [Hex|Hex]; [left|right]; [lia|].
      unfold len in *. lia.
    + intros fuel Hfuel. rewrite He by lia. cbn. by rewrite evictN_add.
  - exists k1, c0.
    refine (conj _ (conj Hr0 (conj Hc0 (conj Ha0 (conj _ (conj _ (conj E0 (conj _ _))))))));
      [lia| |done|done|by intros _].
    intros Hb. left.
    rewrite (memory_bounded_same_config c0), Hmb, Hb in Hmem by done.
    destruct Hc1 as (_ & E1 & _). destruct Hc0 as (_ & E0' & _).
    rewrite E1, E0' in Hmem. cbn in Hmem. lia.
Qed.




















End AccountingOps.

Section AccountingLoad.
Context `{SizeModel} `{SliceSorter}.







End AccountingLoad.

(** ** Lemmas of the claims *)

Section ClaimLemmas.
Context `{SizeModel} `{SliceSorter}.

Lemma removeExistingEntryReferences_frame x c :
  same_frame c (removeExistingEntryReferences x c).
Proof.
  unfold removeExistingEntryReferences.
  repeat match goal with
         | |- context [if ?b then _ else _] => destruct b
         | |- context [match ?o with Some _ => _ | None => _ end] => destruct o
         end; done.
Qed.






(** A loop whose condition holds along the first [k] evictions, and whose
    eviction changes nothing after them, never returns. *)
Lemma evict_while_diverges cond k : ∀ c,
  (∀ j, (j ≤ k)%nat → cond (evictN j c) = true) →
  evict (evictN k c) = evictN k c →
  ∀ fuel n, evict_while cond fuel n c = None.
Proof.
  induction k as [|k IH]; intros c Hcond Hstuck fuel.
  - specialize (Hcond 0%nat ltac:(lia)). cbn in Hcond, Hstuck.
    induction fuel as [|fuel IHf]; intros n; cbn; rewrite Hcond; [done|].
    rewrite Hstuck. apply IHf.
  - intros n. pose proof (Hcond 0%nat ltac:(lia)) as H0'. cbn in H0'.
    destruct fuel as [|fuel]; cbn; rewrite H0'; [done|].
    apply IH.
    + intros j Hj. specialize (Hcond (S j) ltac:(lia)).
      unfold evictN in *. by rewrite Nat.iter_succ_r in Hcond.
    + unfold evictN in *. by rewrite Nat.iter_succ_r in Hstuck.
Qed.


(** What [Decode] does to the map it is given: every key of the snapshot is
    bound to a fresh, unlinked entry carrying the stored fields; a key the
    snapshot does not mention keeps the entry it had, which is left
    untouched; the map is exactly the snapshot only when the cache was
    empty. *)
Lemma gob_Decode_merges (snap : gmap string GobEntry) (c : Cache) :
  (∀ k g, snap !! k = Some g →
     ∃ p, entries (gob_Decode snap c) !! k = Some p ∧
          (next_loc c ≤ p)%nat ∧
          deref (gob_Decode snap c) p = decoded_entry g) ∧
  (∀ k, snap !! k = None → entries (gob_Decode snap c) !! k = entries c !! k) ∧
  (∀ p, (p < next_loc c)%nat → deref (gob_Decode snap c) p = deref c p) ∧
  (entries c = ∅ →
     (λ p, gob_encode_entry (deref (gob_Decode snap c) p)) <$>
       entries (gob_Decode snap c) = snap).
Proof.
  destruct (gob_Decode_spec snap c) as (_ & Hold & Hnone & Hsome & _).
  refine (conj _ (conj Hnone (conj Hold _))).
  - intros k g Hk. destruct (Hsome k g Hk) as (p & E1 & E2 & E3).
    exists p. repeat split; [done|lia|done].
  - intros Hempty. apply map_eq. intros k. rewrite lookup_fmap.
    destruct (snap !! k) as [g|] eqn:Hk.
    + destruct (Hsome k g Hk) as (p & -> & _ & E3). cbn.
      by rewrite E3, gob_encode_decoded.
    + rewrite Hnone by done. by rewrite Hempty, lookup_empty.
Qed.

(** What the update branch of [SetWithTTL] does before the expiration is
    set: the value is replaced, the entry moves to the head, everything
    else stays, and the size of the entry is re-counted under a memory
    bound. *)
Lemma update_entry_facts c l1 x l2 value :
  repr c (l1 ++ x :: l2) →
  repr (update_entry x value c) (l1 ++ l2 ++ [x]) ∧
  same_config c (update_entry x value c) ∧
  stats (update_entry x value c) = stats c ∧
  entries (update_entry x value c) = entries c ∧
  gob_encode_entry (deref (update_entry x value c) x) =
    mkGobEntry (Key (deref c x)) value (RelevantTimestamp (deref c x))
               (Expiration (deref c x)) ∧
  (∀ p, p ≠ x → gob_encode_entry (deref (update_entry x value c) p) =
                gob_encode_entry (deref c p)) ∧
  memoryUsage (update_entry x value c) =
    (if memory_bounded c
     then Int.add (Int.sub (memoryUsage c) (SizeInBytes (deref c x)))
                  (SizeInBytes (set_Value value (deref c x)))
     else memoryUsage c).
Proof.
  intros Hr. destruct (update_entry_repr c l1 x l2 value Hr) as (Hr' & Hc & Hst & He).
  refine (conj Hr' (conj Hc (conj Hst (conj He _)))).
  unfold update_entry.
  set (c2 := if memory_bounded (update x _ _) then _ else _).
  assert (H2 : repr c2 (l1 ++ x :: l2) ∧
               memoryUsage c2 =
                 (if memory_bounded c
                  then Int.add (Int.sub (memoryUsage c) (SizeInBytes (deref c x)))
                               (SizeInBytes (set_Value value (deref c x)))
                  else memoryUsage c) ∧
               deref c2 x = set_Value value (deref c x) ∧
               ∀ q, q ≠ x → deref c2 q = deref c q).
  { subst c2. destruct (memory_bounded c) eqn:Hb.
    - change (memory_bounded (update x (set_Value value) (set_memoryUsage _ c)))
        with (memory_bounded c). rewrite Hb.
      refine (conj _ (conj _ (conj _ _))).
      + apply (repr_ext (update x (set_Value value) c)); try done.
        by apply repr_update_data.
      + cbn [memoryUsage set_memoryUsage]. do 2 f_equal.
        unfold deref. cbn. by rewrite lookup_total_insert_eq.
      + unfold deref. cbn. by rewrite lookup_total_insert_eq.
      + intros q Hq. unfold deref. cbn. by rewrite lookup_total_insert_ne.
    - change (memory_bounded (update x (set_Value value) c)) with (memory_bounded c).
      rewrite Hb. refine (conj _ (conj eq_refl (conj _ _))).
      + by apply repr_update_data.
      + unfold deref. cbn. by rewrite lookup_total_insert_eq.
      + intros q Hq. unfold deref. cbn. by rewrite lookup_total_insert_ne. }
  destruct H2 as (Hr2 & Hm2 & Hx2 & Hq2). clearbody c2.
  destruct (moveExistingEntryToHead_repr c2 l1 x l2 Hr2)
    as (_ & Hp & _ & _ & _ & _ & _ & Fm & _).
  refine (conj _ (conj _ _)).
  - by rewrite Hp, Hx2.
  - intros p Hne. by rewrite Hp, Hq2.
  - by rewrite Fm.
Qed.

End ClaimLemmas.

(** ** Sorted permutations *)

Lemma sorted_perm_unique {A} (f : A → Z) (lb : list A) : ∀ la,
  la ≡ₚ lb →
  StronglySorted (λ a b, f a ≤ f b) la →
  StronglySorted (λ a b, f a < f b) lb →
  la = lb.
Proof.
  induction lb as [|b lb IH]; intros la Hperm Hla Hlb.
  - by apply Permutation_nil_r in Hperm.
  - destruct la as [|a la]; [by apply Permutation_nil_cons in Hperm|].
    apply StronglySorted_inv in Hla as [Hla Ha].
    apply StronglySorted_inv in Hlb as [Hlb Hb].
    rewrite Forall_forall in Ha, Hb.
    assert (a = b) as ->.
    { assert (Hain : a ∈ b :: lb) by (rewrite <- Hperm; left).
      assert (Hbin : b ∈ a :: la) by (rewrite Hperm; left).
      apply elem_of_cons in Hain as [|Hain]; [done|].
      apply elem_of_cons in Hbin as [|Hbin]; [done|].
      specialize (Ha _ Hbin). specialize (Hb _ Hain). lia. }
    f_equal. apply IH; [|done|done]. by apply Permutation_cons_inv in Hperm.
Qed.

Lemma StronglySorted_fmap_2 {A B} (f : A → B) (R : B → B → Prop) l :
  StronglySorted (λ a b, R (f a) (f b)) l → StronglySorted R (f <$> l).
Proof.
  induction 1 as [|x l Hs IH Hx]; cbn; constructor; [done|].
  by apply Forall_fmap.
Qed.

Lemma StronglySorted_app_le {A} (R : A → A → Prop) l1 l2 a b :
  StronglySorted R (l1 ++ l2) → a ∈ l1 → b ∈ l2 → R a b.
Proof.
  induction l1 as [|x l1 IH]; intros Hs Ha Hb; [by apply elem_of_nil in Ha|].
  cbn in Hs. apply StronglySorted_inv in Hs as [Hs Hx].
  apply elem_of_cons in Ha as [->|Ha]; [|by apply IH].
  rewrite Forall_forall in Hx. apply Hx. set_solver.
Qed.

Lemma values_fmap {A B} (f : A → B) (m : gmap string A) :
  (map_to_list (f <$> m)).*2 ≡ₚ f <$> (map_to_list m).*2.
Proof.
  rewrite map_to_list_fmap.
  assert (E : ∀ l : list (string * A), (prod_map id f <$> l).*2 = f <$> l.*2).
  { intros l. rewrite <- !list_fmap_compose. by apply list_fmap_ext; intros ? []. }
  by rewrite E.
Qed.

Lemma elem_of_drop_l {A} (k : nat) (l : list A) x : x ∈ drop k l → x ∈ l.
Proof. intros Hx. rewrite <- (take_drop k l). apply elem_of_app. by right. Qed.

(** The last element of a sorted list is the one that is strictly above all
    others, and the first the one strictly below. *)
Lemma sorted_last_max `{EqDecision A} (f : A → Z) (l l0 : list A) x :
  StronglySorted (λ a b, f a ≤ f b) l → l ≡ₚ l0 → x ∈ l0 →
  (∀ y, y ∈ l0 → y ≠ x → f y < f x) → last l = Some x.
Proof.
  intros Hs Hp Hx Hmax. rewrite <- Hp in Hx.
  destruct l as [|z l] using rev_ind; [by apply elem_of_nil in Hx|].
  rewrite last_snoc. f_equal. destruct (decide (z = x)) as [|Hne]; [done|].
  exfalso. assert (Hx' : x ∈ l) by set_solver.
  pose proof (StronglySorted_app_le _ _ _ x z Hs Hx' ltac:(set_solver)) as Hle.
  cbn in Hle. assert (Hz : z ∈ l0) by (rewrite <- Hp; set_solver).
  specialize (Hmax z Hz Hne). lia.
Qed.

Lemma sorted_head_min `{EqDecision A} (f : A → Z) (l l0 : list A) x :
  StronglySorted (λ a b, f a ≤ f b) l → l ≡ₚ l0 → x ∈ l0 →
  (∀ y, y ∈ l0 → y ≠ x → f x < f y) → hd_error l = Some x.
Proof.
  intros Hs Hp Hx Hmin. rewrite <- Hp in Hx.
  destruct l as [|z l]; [by apply elem_of_nil in Hx|].
  cbn. f_equal. destruct (decide (z = x)) as [|Hne]; [done|].
  exfalso. assert (Hx' : x ∈ l) by set_solver.
  apply StronglySorted_inv in Hs as [_ Hall]. rewrite Forall_forall in Hall.
  specialize (Hall x Hx'). cbn in Hall.
  assert (Hz : z ∈ l0) by (rewrite <- Hp; set_solver).
  specialize (Hmin z Hz Hne). lia.
Qed.

(** ** The snapshot and the loaded cache *)

Section RoundTrip.
Context `{SizeModel} `{SliceSorter}.

Lemma SizeInBytes_payload c p :
  SizeInBytes (deref c p) = payload_size (gob_encode_entry (deref c p)).
Proof. done. Qed.

Lemma sum_sizes_payload c ls :
  sum_sizes c ls = sum_list_Z (payload_size <$> ((λ p, gob_encode_entry (deref c p)) <$> ls)).
Proof. unfold sum_sizes. by rewrite <- list_fmap_compose. Qed.

Lemma SizeInBytes_nonneg e : 0 ≤ SizeInBytes e.
Proof.
  unfold SizeInBytes. pose proof entryOverhead_nonneg.
  pose proof (sizeOfValue_nonneg (Value e)). lia.
Qed.

Lemma sum_sizes_nonneg c ls : 0 ≤ sum_sizes c ls.
Proof.
  unfold sum_sizes, sum_list_Z. induction ls as [|p ls IH]; cbn; [lia|].
  pose proof (SizeInBytes_nonneg (deref c p)). lia.
Qed.

Lemma add_sizes_exact c ls : ∀ m,
  0 ≤ m → m + sum_sizes c ls ≤ Int.max_int →
  add_sizes c m ls = m + sum_sizes c ls.
Proof.
  induction ls as [|p ls IH]; intros m Hm Hle.
  - unfold add_sizes, sum_sizes, sum_list_Z. cbn. lia.
  - change (add_sizes c m (p :: ls))
      with (add_sizes c (Int.add m (SizeInBytes (deref c p))) ls).
    change (sum_sizes c (p :: ls)) with (SizeInBytes (deref c p) + sum_sizes c ls) in *.
    pose proof (SizeInBytes_nonneg (deref c p)). pose proof (sum_sizes_nonneg c ls).
    unfold Int.add. rewrite wrap_in_range.
    + rewrite IH by lia. lia.
    + unfold Int.in_range, Int.min_int, Int.max_int in *. lia.
Qed.

Lemma enforce_bounds_noop fuel c :
  size_ok c → (memory_bounded c = true → memoryUsage c ≤ maxMemoryUsage c) →
  enforce_bounds fuel c = Some (0, c).
Proof.
  intros Hs Hmem. unfold enforce_bounds.
  destruct (negb (size_bounded c) && negb (memory_bounded c)); [done|].
  assert (size_bounded c && over_size c = false) as ->.
  { destruct (size_bounded c) eqn:E; [|done]. cbn. unfold over_size.
    specialize (Hs E). lia. }
  assert (memory_bounded c && (maxMemoryUsage c <? memoryUsage c) = false) as ->; [|done].
  destruct (memory_bounded c) eqn:E; [|done]. cbn. specialize (Hmem eq_refl). lia.
Qed.

Lemma payloads_perm_snapshot c ls :
  repr c ls → payloads c ls ≡ₚ (map_to_list (gob_Encode c)).*2.
Proof.
  intros ((Hnd & _) & Hi & _). unfold payloads, gob_Encode.
  rewrite values_fmap. apply fmap_Permutation. symmetry.
  by apply indexed_values_perm.
Qed.

Lemma payloads_perm_loaded c ls (snap : gmap string GobEntry) :
  repr c ls → (λ p, gob_encode_entry (deref c p)) <$> entries c = snap →
  payloads c ls ≡ₚ (map_to_list snap).*2.
Proof. intros Hr <-. by apply payloads_perm_snapshot. Qed.

Lemma head_key_payloads c ls :
  repr c ls → head_key c = gobKey <$> last (payloads c ls).
Proof.
  intros ((_ & _ & _ & Hh) & _). unfold head_key, payloads.
  rewrite fmap_last, Hh. by destruct (last ls).
Qed.

Lemma tail_key_payloads c ls :
  repr c ls → tail_key c = gobKey <$> hd_error (payloads c ls).
Proof.
  intros ((_ & _ & Ht & _) & _). unfold tail_key, payloads.
  rewrite Ht. by destruct ls.
Qed.

End RoundTrip.

(** * The claims *)

Section Claims.
Context `{SizeModel} `{SliceSorter}.

(** C1, as amended.  Snapshot round-trip.  Take a well-formed cache that is
    within its own bounds (count at most max_size when bounded, summed sizes
    at most max_memory when bounded), save it, and, when the save returns no
    error, load the file into an empty cache with the same configuration.
    The load evicts nothing and yields a well-formed cache with the same key
    set and the same value under every key, whatever the order of the list.
    The head key is the same when the head carries the strictly greatest
    timestamp, the tail key when the tail carries the strictly smallest, and
    the whole list holds the same entries in the same order when the list
    order is the order of the timestamps. *)
Theorem snapshot_round_trip (c c0 : Cache) (ls : list loc) (path : string)
    (fs : gmap string FileContent) (io : SaveOutcome) (fuel : nat) :
  repr c ls →
  size_ok c →
  (memory_bounded c = true →
     sum_sizes c ls ≤ maxMemoryUsage c ∧ maxMemoryUsage c ≤ Int.max_int) →
  entries c0 = ∅ → head c0 = None → tail c0 = None → memoryUsage c0 = 0 →
  same_config c c0 →
  (SaveToFile path c fs io).2 = None →
  ∃ c' ls',
    ReadFromFile fuel path (SaveToFile path c fs io).1 c0 = Some (0, None, c') ∧
    repr c' ls' ∧
    dom (entries c') = dom (entries c) ∧
    (∀ k, value_of c' k = value_of c k) ∧
    ((∀ h p, head c = Some h → p ∈ ls → p ≠ h →
             timestamp_of c p < timestamp_of c h) →
     head_key c' = head_key c) ∧
    ((∀ t p, tail c = Some t → p ∈ ls → p ≠ t →
             timestamp_of c t < timestamp_of c p) →
     tail_key c' = tail_key c) ∧
    (StronglySorted (λ a b, timestamp_of c a < timestamp_of c b) ls →
     payloads c' ls' = payloads c ls).
Proof.
  intros Hr Hsize Hmem He0 Hh0 Ht0 Hm0 Hcfg Hsaved.
  destruct io; try discriminate Hsaved. clear Hsaved.
  unfold SaveToFile, ReadFromFile. cbn [fst]. rewrite lookup_insert_eq.
  set (snap := gob_Encode c).
  assert (Hvalid : snapshot_valid snap).
  { destruct Hr as (_ & Hi & _). by eapply gob_Encode_valid. }
  destruct (load_repr snap c0) as (Hr1 & Hs1 & Hp1 & Hc1 & _ & Hmu1).
  { intros k [p Hp]. rewrite He0 in Hp. by rewrite lookup_empty in Hp. }
  { done. }
  { done. }
  set (c1 := rebuild (gob_Decode snap c0)) in *.
  set (ls1 := sorted_entries (gob_Decode snap c0)) in *. clearbody c1 ls1.
  (* the loaded list carries the saved entries, sorted by timestamp *)
  assert (Hperm : payloads c1 ls1 ≡ₚ payloads c ls).
  { rewrite (payloads_perm_loaded c1 ls1 snap Hr1 Hp1).
    symmetry. by apply payloads_perm_snapshot. }
  assert (Hsorted1 : StronglySorted
            (λ a b, gobRelevantTimestamp a ≤ gobRelevantTimestamp b) (payloads c1 ls1)).
  { apply StronglySorted_fmap_2. exact Hs1. }
  assert (Hcfg1 : same_config c c1) by (by eapply same_config_trans).
  assert (Hdom : dom (entries c1) = dom (entries c)).
  { transitivity (dom snap).
    - rewrite <- Hp1. by rewrite dom_fmap_L.
    - subst snap. unfold gob_Encode. by rewrite dom_fmap_L. }
  assert (Hlen : len c1 = len c).
  { unfold len. f_equal. by rewrite <- !size_dom, Hdom. }
  assert (Hin : ∀ q g, q ∈ ls → g ∈ payloads c ls → g ≠ gob_encode_entry (deref c q) →
            ∃ p, p ∈ ls ∧ p ≠ q ∧ g = gob_encode_entry (deref c p)).
  { intros q g Hq Hg Hne. unfold payloads in Hg.
    apply list_elem_of_fmap in Hg as (p & -> & Hp). exists p.
    split; [done|]. split; [|done]. intros ->. done. }
  rewrite (enforce_bounds_noop fuel c1).
  - exists c1, ls1.
    refine (conj eq_refl (conj Hr1 (conj Hdom (conj _ (conj _ (conj _ _)))))).
    + intros k. unfold value_of.
      assert (E : (λ p, gob_encode_entry (deref c1 p)) <$> entries c1 !! k =
                  (λ p, gob_encode_entry (deref c p)) <$> entries c !! k).
      { rewrite <- !lookup_fmap. by rewrite Hp1. }
      destruct (entries c1 !! k), (entries c !! k); cbn in *; try done.
      by injection E as _ -> _ _.
    + intros Hmax. rewrite (head_key_payloads c1 ls1 Hr1).
      unfold head_key. destruct Hr as ((_ & _ & _ & Hh) & _).
      destruct (head c) as [h|] eqn:Ehead; cbn.
      * assert (Hhin : h ∈ ls).
        { destruct ls as [|y l _] using rev_ind; [done|].
          rewrite last_snoc in Hh. injection Hh as ->. set_solver. }
        rewrite (sorted_last_max gobRelevantTimestamp _ (payloads c ls)
                   (gob_encode_entry (deref c h)) Hsorted1 Hperm); [done| |].
        -- unfold payloads. apply list_elem_of_fmap. by exists h.
        -- intros g Hg Hne. destruct (Hin h g Hhin Hg Hne) as (p & Hp & Hph & ->).
           apply (Hmax h p eq_refl Hp Hph).
      * assert (ls = []) as ->.
        { destruct ls as [|y l _] using rev_ind; [done|].
          by rewrite last_snoc in Hh. }
        apply Permutation_nil_r in Hperm. by rewrite Hperm.
    + intros Hmin. rewrite (tail_key_payloads c1 ls1 Hr1).
      unfold tail_key. destruct Hr as ((_ & _ & Ht & _) & _).
      destruct (tail c) as [t|] eqn:Etail; cbn.
      * assert (Htin : t ∈ ls).
        { destruct ls as [|y l]; [done|]. injection Ht as ->. set_solver. }
        rewrite (sorted_head_min gobRelevantTimestamp _ (payloads c ls)
                   (gob_encode_entry (deref c t)) Hsorted1 Hperm); [done| |].
        -- unfold payloads. apply list_elem_of_fmap. by exists t.
        -- intros g Hg Hne. destruct (Hin t g Htin Hg Hne) as (p & Hp & Hpt & ->).
           apply (Hmin t p eq_refl Hp Hpt).
      * assert (ls = []) as ->.
        { by destruct ls. }
        apply Permutation_nil_r in Hperm. by rewrite Hperm.
    + intros Hsorted. apply (sorted_perm_unique gobRelevantTimestamp); [done|done|].
      apply StronglySorted_fmap_2. exact Hsorted.
  - unfold size_ok. rewrite (size_bounded_same_config c c1) by done.
    rewrite Hlen. destruct Hcfg1 as (-> & _). exact Hsize.
  - rewrite (memory_bounded_same_config c c1) by done. intros Hmb.
    destruct (Hmem Hmb) as [Hsum Hmax].
    rewrite Hmu1, (memory_bounded_same_config c c0), Hmb, Hm0 by done.
    assert (Esum : sum_sizes c1 ls1 = sum_sizes c ls).
    { rewrite !sum_sizes_payload. fold (payloads c1 ls1). fold (payloads c ls).
      apply sum_list_Z_perm. by apply fmap_Permutation. }
    rewrite add_sizes_exact by (rewrite ?Esum; lia).
    rewrite Esum. destruct Hcfg1 as (_ & -> & _). lia.
Qed.

(** C2.  Snapshot load eviction: loading a snapshot of [n] entries into an
    empty cache with [max_size = m < n] and no memory bound returns [n - m],
    evicts [n - m] entries (the counter of evicted keys grows by as much),
    leaves exactly [m] entries, each a snapshot entry unchanged, and every
    evicted entry is at most as recent as every entry that stays. *)
Theorem snapshot_load_eviction (c0 : Cache) (snap : gmap string GobEntry)
    (path : string) (fs : gmap string FileContent) (fuel : nat) :
  fs !! path = Some (Complete snap) → snapshot_valid snap →
  entries c0 = ∅ → head c0 = None → tail c0 = None →
  memory_bounded c0 = false →
  0 < maxSize c0 < Z.of_nat (size snap) →
  Z.of_nat (size snap) ≤ Int.max_int →
  (size snap ≤ fuel)%nat →
  ∃ c',
    ReadFromFile fuel path fs c0 =
      Some (Z.of_nat (size snap) - maxSize c0, None, c') ∧
    well_formed c' ∧
    len c' = maxSize c0 ∧
    EvictedKeys (stats c') =
      EvictedKeys (stats c0) + (Z.of_nat (size snap) - maxSize c0) ∧
    (∀ k p, entries c' !! k = Some p →
       snap !! k = Some (gob_encode_entry (deref c' p))) ∧
    (∀ k k' g g', snap !! k = Some g → snap !! k' = Some g' →
       entries c' !! k = None → is_Some (entries c' !! k') →
       gobRelevantTimestamp g ≤ gobRelevantTimestamp g').
Proof.
  intros Hfs Hvalid He0 Hh0 Ht0 Hmb0 [Hm0 Hover] Hmax Hfuel.
  unfold ReadFromFile. rewrite Hfs.
  destruct (load_repr snap c0) as (Hr1 & Hs1 & Hp1 & Hc1 & Hst1 & _).
  { intros k [p Hp]. rewrite He0 in Hp. by rewrite lookup_empty in Hp. }
  { done. }
  { done. }
  set (c1 := rebuild (gob_Decode snap c0)) in *.
  set (ls1 := sorted_entries (gob_Decode snap c0)) in *. clearbody c1 ls1.
  assert (Hlen1 : len c1 = Z.of_nat (size snap)).
  { unfold len. f_equal. rewrite <- Hp1. by rewrite map_size_fmap. }
  pose proof (repr_len _ _ Hr1) as Hlenls.
  assert (Hm1 : maxSize c1 = maxSize c0) by apply Hc1.
  assert (Hsb1 : size_bounded c1 = true).
  { unfold size_bounded, NoMaxSize. rewrite Hm1. apply negb_true_iff. lia. }
  assert (Hmb1 : memory_bounded c1 = false)
    by (by rewrite (memory_bounded_same_config c0 c1)).
  assert (Hov1 : over_size c1 = true) by (unfold over_size; lia).
  set (k := Z.to_nat (len c1 - maxSize c1)).
  destruct (evict_while_over_size c1 ls1 fuel 0 Hr1 ltac:(lia) ltac:(lia)) as [He Hk].
  fold k in He, Hk.
  destruct (evictN_repr k c1 ls1 Hr1 Hk) as (Hr2 & Hp2 & Hc2 & _ & Hev & _).
  unfold enforce_bounds. rewrite Hsb1, Hmb1, Hov1. cbn [negb andb]. rewrite He.
  rewrite (memory_bounded_same_config c1 (evictN k c1)), Hmb1 by done. cbn [andb].
  assert (Hcount : incrN k 0 = Z.of_nat (size snap) - maxSize c0).
  { rewrite incrN_exact; [subst k; lia| |subst k; lia].
    unfold Int.in_range, Int.min_int, Int.max_int. lia. }
  rewrite Hcount. exists (evictN k c1).
  refine (conj eq_refl (conj _ (conj _ (conj _ (conj _ _))))).
  - by exists (drop k ls1).
  - rewrite (evictN_len k c1 ls1) by done. subst k. lia.
  - rewrite Hev, Hst1. subst k. lia.
  - intros key p Hkp. destruct Hr2 as (_ & Hi2 & _). destruct Hr1 as (_ & Hi1 & _).
    apply Hi2 in Hkp as [Hin Hkey]. rewrite Hp2.
    rewrite (same_payload_Key c1) in Hkey by done.
    assert (Hk1 : entries c1 !! key = Some p).
    { apply Hi1. split; [|done]. by eapply elem_of_drop_l. }
    rewrite <- Hp1, lookup_fmap, Hk1. done.
  - intros key key' g g' Hg Hg' Hgone [p' Hkept].
    destruct Hr2 as (_ & Hi2 & _). pose proof Hr1 as (_ & Hi1 & _).
    assert (Hsome : ∀ kk gg, snap !! kk = Some gg →
              ∃ q, entries c1 !! kk = Some q ∧ gob_encode_entry (deref c1 q) = gg).
    { intros kk gg Hkk. rewrite <- Hp1, lookup_fmap in Hkk.
      destruct (entries c1 !! kk) as [q|]; [|done]. exists q. split; [done|].
      by injection Hkk. }
    destruct (Hsome _ _ Hg) as (p & Hp & Epg).
    apply Hi1 in Hp as [Hpin Hpkey].
    assert (Hp_early : p ∈ take k ls1).
    { rewrite <- (take_drop k ls1) in Hpin. apply elem_of_app in Hpin as [|Hlate]; [done|].
      exfalso. assert (entries (evictN k c1) !! key = Some p); [|congruence].
      apply Hi2. split; [done|]. by rewrite (same_payload_Key c1). }
    apply Hi2 in Hkept as [Hp'in Hp'key].
    rewrite (same_payload_Key c1) in Hp'key by done.
    assert (Hk1' : entries c1 !! key' = Some p').
    { apply Hi1. split; [|done]. by eapply elem_of_drop_l. }
    assert (Epg' : gob_encode_entry (deref c1 p') = g').
    { destruct (Hsome _ _ Hg') as (q & Hq & Eq). congruence. }
    rewrite <- (take_drop k ls1) in Hs1.
    pose proof (StronglySorted_app_le _ _ _ p p' Hs1 Hp_early Hp'in) as Hle.
    rewrite <- Epg, <- Epg'. exact Hle.
Qed.


(** C6, as amended.  A negative TTL other than the sentinel is a silent no-op
    on insert only.  When the key is absent no entry is created and the
    whole cache state stays as it was, for any amount of fuel.  When the key
    is present the call is an ordinary update, as for any other TTL: the
    value is replaced, the entry moves to the head (the others keep their
    order and their content, the entry its key and its timestamp), its
    expiration becomes now + ttl, and then the bounds are enforced as after
    any write, by evicting [k] entries from the tail: none when there is no
    memory bound and the count is within the size bound. *)
Theorem SetWithTTL_negative_ttl (c : Cache) (key : string) (value : GoValue)
    (ttl created now : Z) :
  ttl < 0 → ttl ≠ NoExpiration →
  (entries c !! key = None →
   ∀ fuel, SetWithTTL fuel key value ttl created now c = Some c) ∧
  (∀ l1 x l2, repr c (l1 ++ x :: l2) → entries c !! key = Some x →
     ∃ c0 k,
       repr c0 (l1 ++ l2 ++ [x]) ∧ head c0 = Some x ∧ entries c0 = entries c ∧
       gob_encode_entry (deref c0 x) =
         mkGobEntry key value (RelevantTimestamp (deref c x)) (expiration_after now ttl) ∧
       (∀ p, p ≠ x → gob_encode_entry (deref c0 p) = gob_encode_entry (deref c p)) ∧
       stats c0 = stats c ∧ same_config c c0 ∧
       (k ≤ length (l1 ++ l2 ++ [x]))%nat ∧
       (∀ fuel, (length (l1 ++ l2 ++ [x]) ≤ fuel)%nat →
          SetWithTTL fuel key value ttl created now c = Some (evictN k c0)) ∧
       (memory_bounded c = false → size_ok c →
        k = 0%nat ∧ ∀ fuel, SetWithTTL fuel key value ttl created now c = Some c0)).
Proof.
  intros Hneg Hne. split.
  - intros Hk fuel. unfold SetWithTTL, get. rewrite Hk.
    rewrite bool_decide_eq_true_2 by done.
    by rewrite (proj2 (Z.ltb_lt ttl 0)).
  - intros l1 x l2 Hr Hk.
    assert (Hkey : Key (deref c x) = key).
    { destruct Hr as (_ & Hi & _). by apply Hi in Hk as [_ ?]. }
    destruct (update_entry_facts c l1 x l2 value Hr)
      as (Hr1 & Hc1 & Hst1 & He1 & Hx1 & Hq1 & _).
    set (c1 := update_entry x value c) in *.
    destruct (SetWithTTL_finish_evictN c1 (l1 ++ l2 ++ [x]) x ttl now Hr1
                ltac:(set_solver))
      as (k & c0 & Hk0 & Hr0 & Hc0 & _ & _ & Hf & E0 & Hall & Hzero).
    rewrite bool_decide_eq_true_2 in E0 by done.
    assert (Hrun : ∀ fuel, SetWithTTL fuel key value ttl created now c =
                           SetWithTTL_finish fuel x ttl now c1).
    { intros fuel. unfold SetWithTTL, get. by rewrite Hk. }
    exists c0, k.
    refine (conj Hr0 (conj _ (conj _ (conj _ (conj _ (conj _ (conj _ (conj Hk0
              (conj _ _))))))))).
    + destruct Hr0 as ((_ & _ & _ & ->) & _). by rewrite !app_assoc, last_snoc.
    + by rewrite E0.
    + rewrite E0, deref_update_eq. rewrite <- Hkey. unfold gob_encode_entry in *.
      cbn. injection Hx1 as E1 E2 E3 E4. by rewrite E1, E2, E3.
    + intros p Hp. rewrite E0, deref_update_ne by done. by apply Hq1.
    + rewrite E0. exact Hst1.
    + by eapply same_config_trans.
    + intros fuel Hfuel. rewrite Hrun. by apply Hf.
    + intros Hmb Hsz.
      assert (Hmb1 : memory_bounded c1 = false)
        by (by rewrite (memory_bounded_same_config c c1)).
      assert (Hk00 : k = 0%nat).
      { apply Hzero; [done|]. rewrite (size_bounded_same_config c c1) by done.
        intros Hsb. destruct Hc1 as (-> & _). unfold len. rewrite He1. by apply Hsz. }
      split; [done|]. intros fuel. rewrite Hrun, (Hall Hmb1 fuel). by rewrite Hk00.
Qed.

(** C7.  Expired read: [Get] on a key whose entry is present but expired
    counts a hit and no miss, deletes the entry from the map, subtracts its
    size when memory is bounded, and answers not found; on a well-formed
    cache the entry is also unlinked from the list, which stays
    well-formed. *)
Theorem Get_expired (c : Cache) (key : string) (x : loc) (now accessed : Z) :
  entries c !! key = Some x → Expired (deref c x) now = true →
  (Get key now accessed c).2 = None ∧
  Hits (stats (Get key now accessed c).1) = Hits (stats c) + 1 ∧
  Misses (stats (Get key now accessed c).1) = Misses (stats c) ∧
  EvictedKeys (stats (Get key now accessed c).1) = EvictedKeys (stats c) ∧
  entries (Get key now accessed c).1 = delete key (entries c) ∧
  memoryUsage (Get key now accessed c).1 =
    (if memory_bounded c then Int.sub (memoryUsage c) (SizeInBytes (deref c x))
     else memoryUsage c) ∧
  (∀ ls, repr c ls →
     ∃ l1 l2, ls = l1 ++ x :: l2 ∧ repr (Get key now accessed c).1 (l1 ++ l2)).
Proof.
  intros Hk Hexp. unfold Get, get. rewrite Hk.
  change (deref (count_hit c) x) with (deref c x). rewrite Hexp. cbn [fst snd].
  assert (Hgen : stats (cache_delete key (count_hit c)).1 = stats (count_hit c) ∧
                 entries (cache_delete key (count_hit c)).1 = delete key (entries c) ∧
                 memoryUsage (cache_delete key (count_hit c)).1 =
                   (if memory_bounded c
                    then Int.sub (memoryUsage c) (SizeInBytes (deref c x))
                    else memoryUsage c)).
  { unfold cache_delete.
    change (entries (count_hit c) !! key) with (entries c !! key). rewrite Hk.
    cbn [fst].
    change (memory_bounded (count_hit c)) with (memory_bounded c).
    destruct (memory_bounded c);
      match goal with |- context [removeExistingEntryReferences x ?c'] =>
        destruct (removeExistingEntryReferences_frame x c')
          as (_ & _ & _ & F4 & F5 & F6 & _) end;
      cbn [stats entries memoryUsage set_entries]; rewrite F4, F5, F6; done. }
  destruct Hgen as (Hs & He & Hm). rewrite Hs, He, Hm. cbn.
  repeat split; try done.
  intros ls Hr. destruct (repr_split _ _ _ _ Hr Hk) as (l1 & l2 & -> & _).
  assert (Hr1 : repr (count_hit c) (l1 ++ x :: l2)) by (by apply (repr_ext c)).
  destruct (cache_delete_repr (count_hit c) l1 x l2 key Hr1 Hk) as (Hr' & _).
  by exists l1, l2.
Qed.

(** C8, as amended.  [TTL] answers: the key-does-not-exist error for an
    absent key; the no-expiration error for an entry whose expiration is the
    sentinel; the key-does-not-exist error when the remaining time is
    negative; and otherwise the remaining time, which is zero or more, with
    no error (a duration saturates at the largest 64-bit value). *)
Theorem TTL_result (c : Cache) (key : string) (now : Z) :
  (entries c !! key = None → TTL key now c = (0, Some ErrKeyDoesNotExist)) ∧
  (∀ x, entries c !! key = Some x →
     (Expiration (deref c x) = NoExpiration →
        TTL key now c = (0, Some ErrKeyHasNoExpiration)) ∧
     (Expiration (deref c x) ≠ NoExpiration → Expiration (deref c x) - now < 0 →
        TTL key now c = (0, Some ErrKeyDoesNotExist)) ∧
     (Expiration (deref c x) ≠ NoExpiration → 0 ≤ Expiration (deref c x) - now →
        ∃ d, TTL key now c = (d, None) ∧ 0 ≤ d ∧
             d = Z.min (Expiration (deref c x) - now) Int.max_int)).
Proof.
  unfold TTL, get. split; [by intros ->|].
  intros x ->. refine (conj _ (conj _ _)).
  - intros E. by rewrite bool_decide_eq_true_2.
  - intros Hne Hlt. rewrite bool_decide_eq_false_2 by done.
    assert (time_Until (Expiration (deref c x)) now < 0) as ->%Z.ltb_lt; [|done].
    unfold time_Until, Int.min_int, Int.max_int. lia.
  - intros Hne Hge. rewrite bool_decide_eq_false_2 by done.
    assert (E : time_Until (Expiration (deref c x)) now =
                Z.min (Expiration (deref c x) - now) Int.max_int).
    { unfold time_Until, Int.min_int, Int.max_int. lia. }
    rewrite E.
    assert (0 ≤ Z.min (Expiration (deref c x) - now) Int.max_int)
      by (unfold Int.max_int; lia).
    rewrite (proj2 (Z.ltb_ge _ 0)) by done. by eexists.
Qed.

(** C9.  Middle removal keeps the endpoints fixed: unlinking or deleting an
    entry that is neither the head nor the tail leaves [head] and [tail]
    pointing at the objects they pointed at; conversely an endpoint that
    moved was the removed entry.  On a well-linked list the entries around
    the removed one are then chained to each other. *)
Theorem middle_removal_keeps_endpoints (c : Cache) (x : loc) :
  (head c ≠ Some x → tail c ≠ Some x →
     head (removeExistingEntryReferences x c) = head c ∧
     tail (removeExistingEntryReferences x c) = tail c ∧
     (∀ key, entries c !! key = Some x →
        head (cache_delete key c).1 = head c ∧
        tail (cache_delete key c).1 = tail c)) ∧
  (head (removeExistingEntryReferences x c) ≠ head c ∨
   tail (removeExistingEntryReferences x c) ≠ tail c →
     head c = Some x ∨ tail c = Some x) ∧
  (∀ l1 l2, linked c (l1 ++ x :: l2) → l1 ≠ [] → l2 ≠ [] →
     linked (removeExistingEntryReferences x c) (l1 ++ l2) ∧
     head (removeExistingEntryReferences x c) = head c ∧
     tail (removeExistingEntryReferences x c) = tail c).
Proof.
  assert (Hmid : ∀ c', head c' ≠ Some x → tail c' ≠ Some x →
            head (removeExistingEntryReferences x c') = head c' ∧
            tail (removeExistingEntryReferences x c') = tail c').
  { intros c' Hh Ht. unfold removeExistingEntryReferences, ptr_eqb.
    rewrite (bool_decide_eq_false_2 (tail c' = Some x)) by done.
    rewrite (bool_decide_eq_false_2 (head c' = Some x)) by done.
    cbn [andb].
    repeat match goal with
           | |- context [match ?o with Some _ => _ | None => _ end] => destruct o
           end; done. }
  refine (conj _ (conj _ _)).
  - intros Hh Ht. destruct (Hmid c Hh Ht) as [E1 E2].
    refine (conj E1 (conj E2 _)). intros key Hk.
    unfold cache_delete. rewrite Hk. cbn [fst].
    destruct (memory_bounded c); cbn [head tail set_entries];
      match goal with |- context [removeExistingEntryReferences x ?c'] =>
        destruct (Hmid c') as [-> ->]; done end.
  - intros Hmoved.
    destruct (decide (head c = Some x)) as [|Hh]; [by left|].
    destruct (decide (tail c = Some x)) as [|Ht]; [by right|].
    destruct (Hmid c Hh Ht) as [E1 E2]. destruct Hmoved; congruence.
  - intros l1 l2 Hl Hne1 Hne2. pose proof Hl as (Hnd & _ & Ht & Hh).
    destruct (remove_linked c l1 x l2 Hl) as (Hl' & _).
    assert (Hh' : head c ≠ Some x).
    { rewrite Hh. intros E. by apply (last_mid _ _ _ Hnd) in E. }
    assert (Ht' : tail c ≠ Some x).
    { rewrite Ht. intros E. by apply (hd_error_mid _ _ _ Hnd) in E. }
    destruct (Hmid c Hh' Ht') as [E1 E2]. done.
Qed.

(** C10.  Eviction on an empty cache is safe: when the tail is nil, or the
    map has no entry, [evict] returns the cache exactly as it was; the
    evicted-keys counter in particular is not incremented. *)
Theorem evict_empty_noop (c : Cache) :
  tail c = None ∨ len c = 0 →
  evict c = c ∧ EvictedKeys (stats (evict c)) = EvictedKeys (stats c).
Proof.
  intros Hempty.
  assert (He : evict c = c).
  { unfold evict. destruct (tail c) as [oldTail|]; [|done].
    destruct Hempty as [|Hlen]; [done|]. by rewrite Hlen. }
  by rewrite He.
Qed.


End Claims.

(** * Concrete runs *)

Section ConcreteRuns.

#[local] Existing Instance demoSizeModel.
#[local] Existing Instance insertionSorter.

Lemma snapshot_valid_check_sound snap :
  snapshot_valid_check snap = true → snapshot_valid snap.
Proof.
  unfold snapshot_valid_check. rewrite forallb_forall. intros Hall k g Hk.
  apply elem_of_map_to_list, list_elem_of_In in Hk. specialize (Hall _ Hk).
  by apply bool_decide_eq_true in Hall.
Qed.

(** C1 as amended, at [cache_abc_bounded], whose list order is its timestamp
    order. *)
Lemma snapshot_round_trip_witness :
  repr cache_abc_bounded [0; 1; 2]%nat ∧
  size_ok cache_abc_bounded ∧
  sum_sizes cache_abc_bounded [0; 1; 2]%nat ≤ maxMemoryUsage cache_abc_bounded ∧
  same_config cache_abc_bounded (WithMaxMemoryUsage 1000 NewCache) ∧
  (SaveToFile "cache.bak" cache_abc_bounded ∅ SaveSucceeds).2 = None ∧
  StronglySorted (λ a b, timestamp_of cache_abc_bounded a < timestamp_of cache_abc_bounded b)
    [0; 1; 2]%nat ∧
  ∃ c' ls',
    ReadFromFile 0 "cache.bak" (SaveToFile "cache.bak" cache_abc_bounded ∅ SaveSucceeds).1
      (WithMaxMemoryUsage 1000 NewCache) = Some (0, None, c') ∧
    repr c' ls' ∧
    dom (entries c') = dom (entries cache_abc_bounded) ∧
    (∀ k, value_of c' k = value_of cache_abc_bounded k) ∧
    head_key c' = head_key cache_abc_bounded ∧
    tail_key c' = tail_key cache_abc_bounded ∧
    payloads c' ls' = payloads cache_abc_bounded [0; 1; 2]%nat.
Proof.
  assert (Hr : repr cache_abc_bounded [0; 1; 2]%nat)
    by (apply repr_check_sound; vm_compute; reflexivity).
  assert (Hs : StronglySorted
            (λ a b, timestamp_of cache_abc_bounded a < timestamp_of cache_abc_bounded b)
            [0; 1; 2]%nat)
    by (repeat constructor; vm_compute; reflexivity).
  assert (Hsz : size_ok cache_abc_bounded) by (intros _; vm_compute; discriminate).
  assert (Hsum : sum_sizes cache_abc_bounded [0; 1; 2]%nat
                 ≤ maxMemoryUsage cache_abc_bounded) by (vm_compute; discriminate).
  assert (Hmem : memory_bounded cache_abc_bounded = true →
            sum_sizes cache_abc_bounded [0; 1; 2]%nat ≤ maxMemoryUsage cache_abc_bounded ∧
            maxMemoryUsage cache_abc_bounded ≤ Int.max_int)
    by (intros _; split; [exact Hsum|vm_compute; discriminate]).
  assert (Hc : same_config cache_abc_bounded (WithMaxMemoryUsage 1000 NewCache))
    by (vm_compute; done).
  assert (Hhead : ∀ h p, head cache_abc_bounded = Some h → p ∈ [0; 1; 2]%nat → p ≠ h →
            timestamp_of cache_abc_bounded p < timestamp_of cache_abc_bounded h).
  { intros h p Hh Hp Hne. vm_compute in Hh. injection Hh as <-.
    repeat (apply elem_of_cons in Hp as [->|Hp]; [try done; vm_compute; reflexivity|]).
    by apply elem_of_nil in Hp. }
  assert (Htail : ∀ t p, tail cache_abc_bounded = Some t → p ∈ [0; 1; 2]%nat → p ≠ t →
            timestamp_of cache_abc_bounded t < timestamp_of cache_abc_bounded p).
  { intros t p Ht Hp Hne. vm_compute in Ht. injection Ht as <-.
    repeat (apply elem_of_cons in Hp as [->|Hp]; [try done; vm_compute; reflexivity|]).
    by apply elem_of_nil in Hp. }
  destruct (snapshot_round_trip cache_abc_bounded (WithMaxMemoryUsage 1000 NewCache)
              [0; 1; 2]%nat "cache.bak" ∅ SaveSucceeds 0 Hr Hsz Hmem
              eq_refl eq_refl eq_refl eq_refl Hc eq_refl)
    as (c' & ls' & Hf & Hr' & Hd & Hv & Hh & Ht & Hp).
  refine (conj Hr (conj Hsz (conj Hsum (conj Hc (conj eq_refl (conj Hs _)))))).
  exists c', ls'.
  exact (conj Hf (conj Hr' (conj Hd (conj Hv (conj (Hh Hhead) (conj (Ht Htail) (Hp Hs))))))).
Defined.

(** C1 as stated fails, in two ways.  By design: [WithMaxSize(2)] on the
    three entries of [cache_abc] evicts nothing, and the load into a cache
    with the same configuration evicts down to the bound, so the key ["a"]
    is lost.  And by the update branch of [SetWithTTL]: the entries of
    [cache_aba] have the distinct timestamps 1 and 2, its head is ["a"] and
    its tail ["b"]; saved and loaded into a new cache (same bounds, same
    policy) the head is ["b"] and the tail ["a"], because the update of
    ["a"] moved it to the head without touching its timestamp. *)
Lemma round_trip_counterexample :
  (well_formed (WithMaxSize 2 cache_abc) ∧
   timestamp_of (WithMaxSize 2 cache_abc) <$> [0%nat; 1%nat; 2%nat] = [1; 2; 3] ∧
   same_config (WithMaxSize 2 cache_abc) (WithMaxSize 2 NewCache) ∧
   dom (entries (WithMaxSize 2 cache_abc)) = {["a"; "b"; "c"]} ∧
   ∃ c', ReadFromFile 4 "cache.bak"
           (SaveToFile "cache.bak" (WithMaxSize 2 cache_abc) ∅ SaveSucceeds).1
           (WithMaxSize 2 NewCache) = Some (1, None, c') ∧
         dom (entries c') = {["b"; "c"]}) ∧
  (well_formed cache_aba ∧
   timestamp_of cache_aba <$> [0%nat; 1%nat] = [1; 2] ∧
   same_config cache_aba NewCache ∧
   head_key cache_aba = Some "a" ∧ tail_key cache_aba = Some "b" ∧
   ∃ c', ReadFromFile 4 "cache.bak" (SaveToFile "cache.bak" cache_aba ∅ SaveSucceeds).1
           NewCache = Some (0, None, c') ∧
         dom (entries c') = dom (entries cache_aba) ∧
         head_key c' = Some "b" ∧ tail_key c' = Some "a").
Proof.
  split.
  - split.
    { exists [0; 1; 2]%nat. apply repr_check_sound. vm_compute. reflexivity. }
    split; [vm_compute; reflexivity|]. split; [vm_compute; done|].
    split; [vm_compute; reflexivity|].
    eexists. split; [vm_compute; reflexivity|]. vm_compute. reflexivity.
  - split.
    { exists [1; 0]%nat. apply repr_check_sound. vm_compute. reflexivity. }
    split; [vm_compute; reflexivity|]. split; [vm_compute; done|].
    split; [vm_compute; reflexivity|]. split; [vm_compute; reflexivity|].
    eexists. split; [vm_compute; reflexivity|].
    split; [vm_compute; reflexivity|]. vm_compute. done.
Qed.

(** C2, at the scenario of the persistence test: the ten-entry snapshot
    loaded into a cache with [maxSize = 7]. *)
Lemma snapshot_load_eviction_witness :
  size ten_snapshot = 10%nat ∧
  snapshot_valid ten_snapshot ∧
  maxSize (WithMaxSize 7 NewCache) = 7 ∧
  memory_bounded (WithMaxSize 7 NewCache) = false ∧
  ∃ c',
    ReadFromFile 10 "cache.bak" {["cache.bak" := Complete ten_snapshot]} (WithMaxSize 7 NewCache)
      = Some (Z.of_nat (size ten_snapshot) - maxSize (WithMaxSize 7 NewCache), None, c') ∧
    well_formed c' ∧
    len c' = maxSize (WithMaxSize 7 NewCache) ∧
    EvictedKeys (stats c') =
      EvictedKeys (stats (WithMaxSize 7 NewCache)) +
      (Z.of_nat (size ten_snapshot) - maxSize (WithMaxSize 7 NewCache)) ∧
    (∀ k p, entries c' !! k = Some p →
       ten_snapshot !! k = Some (gob_encode_entry (deref c' p))) ∧
    (∀ k k' g g', ten_snapshot !! k = Some g → ten_snapshot !! k' = Some g' →
       entries c' !! k = None → is_Some (entries c' !! k') →
       gobRelevantTimestamp g ≤ gobRelevantTimestamp g').
Proof.
  assert (Hsize : size ten_snapshot = 10%nat) by (vm_compute; reflexivity).
  assert (Hvalid : snapshot_valid ten_snapshot)
    by (apply snapshot_valid_check_sound; vm_compute; reflexivity).
  assert (Hm : maxSize (WithMaxSize 7 NewCache) = 7) by reflexivity.
  assert (Hmb : memory_bounded (WithMaxSize 7 NewCache) = false) by reflexivity.
  refine (conj Hsize (conj Hvalid (conj Hm (conj Hmb _)))).
  apply (snapshot_load_eviction (WithMaxSize 7 NewCache) ten_snapshot "cache.bak"
           {["cache.bak" := Complete ten_snapshot]} 10).
  - apply lookup_singleton_eq.
  - exact Hvalid.
  - reflexivity.
  - reflexivity.
  - reflexivity.
  - exact Hmb.
  - rewrite Hsize, Hm. lia.
  - rewrite Hsize. vm_compute. discriminate.
  - rewrite Hsize. lia.
Defined.

(** C3.  A load does not overwrite the current state.  Decoding a snapshot
    that holds only ["new"] into [cache_abc] leaves "a", "b" and "c" in the
    map, with their old values, and so does the whole of [ReadFromFile].
    The loop that relinks the list takes every entry of the map for a
    decoded one, with nil links: loading the snapshot of "n1" and "n2" into
    [cache_aba] with a size bound of 1, whose old entries are linked in
    another order than that of their timestamps, leaves the tail with a
    stale link, three evictions empty the list while two entries stay in
    the map, and the eviction loop never ends. *)
Lemma load_keeps_prior_entries :
  new_only_snapshot !! "a" = None ∧
  dom (entries cache_abc) = {["a"; "b"; "c"]} ∧
  dom (entries (gob_Decode new_only_snapshot cache_abc)) = {["a"; "b"; "c"; "new"]} ∧
  (∃ c', ReadFromFile 4 "cache.bak" {["cache.bak" := Complete new_only_snapshot]} cache_abc
           = Some (0, None, c') ∧
         dom (entries c') = {["a"; "b"; "c"; "new"]} ∧
         value_of c' "a" = Some (VString "1")) ∧
  dom (entries (gob_Decode two_new_snapshot (WithMaxSize 1 cache_aba)))
    = {["a"; "b"; "n1"; "n2"]} ∧
  tail (evictN 3 (rebuild (gob_Decode two_new_snapshot (WithMaxSize 1 cache_aba)))) = None ∧
  Count (evictN 3 (rebuild (gob_Decode two_new_snapshot (WithMaxSize 1 cache_aba)))) = 2 ∧
  ∀ fuel, ReadFromFile fuel "cache.bak" {["cache.bak" := Complete two_new_snapshot]}
            (WithMaxSize 1 cache_aba) = None.
Proof.
  split; [reflexivity|]. split; [vm_compute; reflexivity|].
  split; [vm_compute; reflexivity|].
  split; [eexists; vm_compute; repeat split; reflexivity|].
  split; [vm_compute; reflexivity|]. split; [vm_compute; reflexivity|].
  split; [vm_compute; reflexivity|].
  intros fuel. unfold ReadFromFile. rewrite lookup_singleton_eq.
  set (c1 := rebuild (gob_Decode two_new_snapshot (WithMaxSize 1 cache_aba))).
  assert (Hsb : size_bounded c1 = true) by (vm_compute; reflexivity).
  assert (Hov : over_size c1 = true) by (vm_compute; reflexivity).
  unfold enforce_bounds. rewrite Hsb, Hov. cbn [negb andb].
  rewrite (evict_while_diverges over_size 3 c1); [done| |vm_compute; reflexivity].
  intros j Hj. destruct j as [|[|[|[|j]]]]; [vm_compute; reflexivity..|lia].
Qed.



(** C5.  Memory accounting is broken by a load into a cache that already
    accounts for entries: [cache_a_bounded] holds one entry of 58 bytes and
    [memoryUsage] is 58; after it saves itself and reads the file back it
    still holds that one entry, and [memoryUsage] is 116, because
    [ReadFromFile] adds the sizes of the loaded entries to the old total. *)
Lemma load_double_counts_memory :
  memory_bounded cache_a_bounded = true ∧
  memoryUsage cache_a_bounded = 58 ∧ entries_size cache_a_bounded = 58 ∧
  ∃ c', ReadFromFile 4 "cache.bak" (SaveToFile "cache.bak" cache_a_bounded ∅ SaveSucceeds).1
          cache_a_bounded = Some (0, None, c') ∧
        dom (entries c') = {["a"]} ∧
        entries_size c' = 58 ∧ memoryUsage c' = 116.
Proof.
  split; [reflexivity|]. split; [vm_compute; reflexivity|].
  split; [vm_compute; reflexivity|].
  eexists. vm_compute. repeat split; reflexivity.
Qed.

(** C6 as amended, at [cache_abc] (no memory bound, three entries under the
    default size bound): with the absent key ["z"] nothing happens; with the
    present key ["a"], the tail, the value is replaced, the entry moves to
    the head, keeps its timestamp 1 and gets the expiration 7 - 5 = 2, and
    nothing is evicted. *)
Lemma SetWithTTL_negative_ttl_witness :
  -5 < 0 ∧ -5 ≠ NoExpiration ∧
  entries cache_abc !! "z" = None ∧
  SetWithTTL 0 "z" (VString "v") (-5) 7 7 cache_abc = Some cache_abc ∧
  repr cache_abc ([] ++ 0%nat :: [1; 2]%nat) ∧
  entries cache_abc !! "a" = Some 0%nat ∧
  memory_bounded cache_abc = false ∧ size_ok cache_abc ∧
  ∃ c0,
    (∀ fuel, SetWithTTL fuel "a" (VString "9") (-5) 7 7 cache_abc = Some c0) ∧
    repr c0 [1; 2; 0]%nat ∧ head c0 = Some 0%nat ∧
    entries c0 = entries cache_abc ∧
    gob_encode_entry (deref c0 0%nat) = mkGobEntry "a" (VString "9") 1 2 ∧
    (∀ p, p ≠ 0%nat → gob_encode_entry (deref c0 p) = gob_encode_entry (deref cache_abc p)).
Proof.
  assert (H1 : -5 < 0) by lia.
  assert (H2 : -5 ≠ NoExpiration) by (unfold NoExpiration; lia).
  assert (H3 : entries cache_abc !! "z" = None) by (vm_compute; reflexivity).
  assert (Hr : repr cache_abc ([] ++ 0%nat :: [1; 2]%nat))
    by (apply repr_check_sound; vm_compute; reflexivity).
  assert (Hk : entries cache_abc !! "a" = Some 0%nat) by (vm_compute; reflexivity).
  assert (Hmb : memory_bounded cache_abc = false) by reflexivity.
  assert (Hsz : size_ok cache_abc) by (intros _; vm_compute; discriminate).
  destruct (SetWithTTL_negative_ttl cache_abc "z" (VString "v") (-5) 7 7 H1 H2)
    as [Habsent _].
  destruct (SetWithTTL_negative_ttl cache_abc "a" (VString "9") (-5) 7 7 H1 H2)
    as [_ Hpresent].
  destruct (Hpresent [] 0%nat [1; 2]%nat Hr Hk)
    as (c0 & k & Hr0 & Hh0 & He0 & Hx0 & Hq0 & _ & _ & _ & _ & Hfin).
  destruct (Hfin Hmb Hsz) as [_ Hrun].
  refine (conj H1 (conj H2 (conj H3 (conj (Habsent H3 0%nat) (conj Hr (conj Hk (conj Hmb
            (conj Hsz _)))))))).
  exists c0. exact (conj Hrun (conj Hr0 (conj Hh0 (conj He0 (conj Hx0 Hq0))))).
Defined.

(** C6 as stated fails when the key is present: [SetWithTTL("a", "9", -5)]
    on [cache_abc] at time 7 replaces the value of ["a"], gives it the
    expiration 7 - 5 = 2 and moves it from the tail to the head. *)
Lemma SetWithTTL_negative_ttl_present_counterexample :
  entries cache_abc !! "a" = Some 0%nat ∧
  value_of cache_abc "a" = Some (VString "1") ∧
  tail_key cache_abc = Some "a" ∧
  ∃ c', SetWithTTL 4 "a" (VString "9") (-5) 7 7 cache_abc = Some c' ∧
        c' ≠ cache_abc ∧
        value_of c' "a" = Some (VString "9") ∧
        Expiration (deref c' 0%nat) = 2 ∧
        head_key c' = Some "a" ∧ tail_key c' = Some "b".
Proof.
  split; [vm_compute; reflexivity|]. split; [vm_compute; reflexivity|].
  split; [vm_compute; reflexivity|].
  eexists. split; [vm_compute; reflexivity|].
  split; [|vm_compute; repeat split; reflexivity].
  intros E. apply (f_equal (λ c, value_of c "a")) in E. vm_compute in E. discriminate.
Qed.

(** C7, at the entry of [cache_ttl], which expires at time 15, read at
    time 20. *)
Lemma Get_expired_witness :
  entries cache_ttl !! "t" = Some 0%nat ∧
  Expired (deref cache_ttl 0%nat) 20 = true ∧
  repr cache_ttl [0%nat] ∧
  (Get "t" 20 20 cache_ttl).2 = None ∧
  Hits (stats (Get "t" 20 20 cache_ttl).1) = Hits (stats cache_ttl) + 1 ∧
  Misses (stats (Get "t" 20 20 cache_ttl).1) = Misses (stats cache_ttl) ∧
  entries (Get "t" 20 20 cache_ttl).1 = delete "t" (entries cache_ttl) ∧
  ∃ l1 l2, [0%nat] = l1 ++ 0%nat :: l2 ∧ repr (Get "t" 20 20 cache_ttl).1 (l1 ++ l2).
Proof.
  assert (Hk : entries cache_ttl !! "t" = Some 0%nat) by (vm_compute; reflexivity).
  assert (He : Expired (deref cache_ttl 0%nat) 20 = true) by (vm_compute; reflexivity).
  assert (Hr : repr cache_ttl [0%nat])
    by (apply repr_check_sound; vm_compute; reflexivity).
  destruct (Get_expired cache_ttl "t" 0%nat 20 20 Hk He)
    as (E1 & E2 & E3 & _ & E5 & _ & Hlist).
  exact (conj Hk (conj He (conj Hr (conj E1 (conj E2 (conj E3 (conj E5 (Hlist _ Hr)))))))).
Defined.

(** C8 as amended, at the entry of [cache_ttl] (expiration 15), queried at
    times before, at and after the expiration, and at absent and unbounded
    entries. *)
Lemma TTL_result_witness :
  entries cache_ttl !! "x" = None ∧
  TTL "x" 12 cache_ttl = (0, Some ErrKeyDoesNotExist) ∧
  entries cache_abc !! "a" = Some 0%nat ∧
  Expiration (deref cache_abc 0%nat) = NoExpiration ∧
  TTL "a" 12 cache_abc = (0, Some ErrKeyHasNoExpiration) ∧
  entries cache_ttl !! "t" = Some 0%nat ∧
  Expiration (deref cache_ttl 0%nat) ≠ NoExpiration ∧
  Expiration (deref cache_ttl 0%nat) - 20 < 0 ∧
  TTL "t" 20 cache_ttl = (0, Some ErrKeyDoesNotExist) ∧
  0 ≤ Expiration (deref cache_ttl 0%nat) - 12 ∧
  ∃ d, TTL "t" 12 cache_ttl = (d, None) ∧ 0 ≤ d ∧
       d = Z.min (Expiration (deref cache_ttl 0%nat) - 12) Int.max_int.
Proof.
  assert (H1 : entries cache_ttl !! "x" = None) by (vm_compute; reflexivity).
  assert (H2 : entries cache_abc !! "a" = Some 0%nat) by (vm_compute; reflexivity).
  assert (H3 : Expiration (deref cache_abc 0%nat) = NoExpiration)
    by (vm_compute; reflexivity).
  assert (H4 : entries cache_ttl !! "t" = Some 0%nat) by (vm_compute; reflexivity).
  assert (H5 : Expiration (deref cache_ttl 0%nat) ≠ NoExpiration)
    by (vm_compute; discriminate).
  assert (H6 : Expiration (deref cache_ttl 0%nat) - 20 < 0) by (vm_compute; reflexivity).
  assert (H7 : 0 ≤ Expiration (deref cache_ttl 0%nat) - 12) by (vm_compute; discriminate).
  destruct (TTL_result cache_ttl "x" 12) as [A _].
  destruct (TTL_result cache_abc "a" 12) as [_ B].
  destruct (B _ H2) as (B1 & _ & _).
  destruct (TTL_result cache_ttl "t" 20) as [_ C].
  destruct (C _ H4) as (_ & C2 & _).
  destruct (TTL_result cache_ttl "t" 12) as [_ D].
  destruct (D _ H4) as (_ & _ & D3).
  exact (conj H1 (conj (A H1) (conj H2 (conj H3 (conj (B1 H3) (conj H4 (conj H5
           (conj H6 (conj (C2 H5 H6) (conj H7 (D3 H5 H7))))))))))).
Defined.

(** C8 as stated fails on the boundary: queried at the very nanosecond of
    the expiration, [TTL] answers a remaining time of zero with no error,
    and zero is not a positive duration. *)
Lemma TTL_zero_remaining_counterexample :
  entries cache_ttl !! "t" = Some 0%nat ∧
  Expiration (deref cache_ttl 0%nat) = 15 ∧
  TTL "t" 15 cache_ttl = (0, None).
Proof. vm_compute. repeat split; reflexivity. Qed.

(** C9, at the middle entry of [cache_abc]. *)
Lemma middle_removal_keeps_endpoints_witness :
  head cache_abc ≠ Some 1%nat ∧ tail cache_abc ≠ Some 1%nat ∧
  linked cache_abc ([0%nat] ++ 1%nat :: [2%nat]) ∧
  entries cache_abc !! "b" = Some 1%nat ∧
  head (removeExistingEntryReferences 1%nat cache_abc) = head cache_abc ∧
  tail (removeExistingEntryReferences 1%nat cache_abc) = tail cache_abc ∧
  head (cache_delete "b" cache_abc).1 = head cache_abc ∧
  tail (cache_delete "b" cache_abc).1 = tail cache_abc ∧
  linked (removeExistingEntryReferences 1%nat cache_abc) ([0%nat] ++ [2%nat]).
Proof.
  assert (Hh : head cache_abc ≠ Some 1%nat) by (vm_compute; discriminate).
  assert (Ht : tail cache_abc ≠ Some 1%nat) by (vm_compute; discriminate).
  assert (Hl : linked cache_abc ([0%nat] ++ 1%nat :: [2%nat])).
  { apply (repr_check_sound cache_abc [0; 1; 2]%nat). vm_compute. reflexivity. }
  assert (Hk : entries cache_abc !! "b" = Some 1%nat) by (vm_compute; reflexivity).
  destruct (middle_removal_keeps_endpoints cache_abc 1%nat) as (Hmid & _ & Hlist).
  destruct (Hmid Hh Ht) as (E1 & E2 & Hdel).
  destruct (Hdel "b" Hk) as [E3 E4].
  destruct (Hlist [0%nat] [2%nat] Hl ltac:(discriminate) ltac:(discriminate))
    as (Hl' & _ & _).
  exact (conj Hh (conj Ht (conj Hl (conj Hk (conj E1 (conj E2 (conj E3 (conj E4 Hl')))))))).
Defined.

(** C10, at a new cache. *)
Lemma evict_empty_noop_witness :
  (tail NewCache = None ∨ len NewCache = 0) ∧
  evict NewCache = NewCache ∧
  EvictedKeys (stats (evict NewCache)) = EvictedKeys (stats NewCache).
Proof.
  split; [left; reflexivity|].
  apply (evict_empty_noop NewCache). left; reflexivity.
Defined.


End ConcreteRuns.
